(** * Sumview: the knowledge-graph core (app/services/graphrag_service.py)

    A shallow embedding of [GraphRAGService]: the two deduplicators, the
    merge of a graph fragment into the NetworkX store, the query engine and
    the summary reporter, followed by the properties of the specification
    that concern them.

    Modelling conventions.
    - A Python [str] is a Rocq [string]; a character is read as the code
      point 0..255, and [lower] / [strip] are Python's on that range.
    - A confidence (a Python float) is the rational [Q] it denotes; NaN and
      the infinities are outside the model.  [py_max] is Python's [max] on
      two arguments: the second wins only when strictly greater.
    - A Python dict that is iterated is an association list in insertion
      order ([dict_get], [dict_set]); a Python set is a [gset].
    - The collaborators (spaCy pipeline, OpenAI client) are functions handed
      to the service; a call either returns or raises ([Outcome]).  Their
      answers are typed: a chat answer whose "text" is not a string, on
      which [lower] would raise, is outside the model.
    - [nx.DiGraph] is a third-party class: [DiGraph] below keeps its node
      dictionary and its edges in insertion order, and [shortest_path] is a
      breadth-first search over the directed edges. *)

From Stdlib Require Import Ascii String DecimalString DecimalPos DecimalZ
  QArith Qminmax.
From stdpp Require Import base list strings gmap.

Local Open Scope string_scope.
Local Open Scope list_scope.

(** ** Python strings *)

Module PyStr.

Definition code (c : ascii) : nat := nat_of_ascii c.

(** [str.lower] on one code point below 256: A-Z and the upper-case
    Latin-1 letters (all of 0xC0-0xDE but the multiplication sign). *)
Definition lower_char (c : ascii) : ascii :=
  let n := code c in
  if (((65 <=? n) && (n <=? 90))
      || ((192 <=? n) && (n <=? 222) && negb (n =? 215)))%nat
  then ascii_of_nat (n + 32) else c.

Fixpoint lower (s : string) : string :=
  match s with
  | EmptyString => EmptyString
  | String c s' => String (lower_char c) (lower s')
  end.

(** [str.isspace] on one code point below 256. *)
Definition is_space (c : ascii) : bool :=
  let n := code c in
  (((9 <=? n) && (n <=? 13)) || ((28 <=? n) && (n <=? 32))
   || (n =? 133) || (n =? 160))%nat.

Fixpoint lstrip (s : string) : string :=
  match s with
  | EmptyString => EmptyString
  | String c s' => if is_space c then lstrip s' else s
  end.

Fixpoint rstrip (s : string) : string :=
  match s with
  | EmptyString => EmptyString
  | String c s' =>
      match rstrip s' with
      | EmptyString => if is_space c then EmptyString else String c EmptyString
      | r => String c r
      end
  end.

(** [s.strip()] *)
Definition strip (s : string) : string := rstrip (lstrip s).

(** [sub in s] *)
Fixpoint contains (sub s : string) : bool :=
  String.prefix sub s
  || match s with
     | EmptyString => false
     | String _ s' => contains sub s'
     end.

(** [s.split(sep)] for a one-character separator. *)
Fixpoint split (sep : ascii) (s : string) : list string :=
  match s with
  | EmptyString => [EmptyString]
  | String c s' =>
      if Ascii.eqb c sep then EmptyString :: split sep s'
      else match split sep s' with
           | [] => [String c EmptyString]
           | w :: ws => String c w :: ws
           end
  end.

End PyStr.

(** ** Insertion-ordered dictionaries *)

Section Dict.
Context {K V : Type} `{EqDecision K}.

Fixpoint dict_get (k : K) (m : list (K * V)) : option V :=
  match m with
  | [] => None
  | (k', v) :: m' => if decide (k = k') then Some v else dict_get k m'
  end.

(** [m[k] = v]: an existing key keeps its place, a new key goes last. *)
Fixpoint dict_set (k : K) (v : V) (m : list (K * V)) : list (K * V) :=
  match m with
  | [] => [(k, v)]
  | (k', v') :: m' =>
      if decide (k = k') then (k', v) :: m' else (k', v') :: dict_set k v m'
  end.

Definition dict_has (k : K) (m : list (K * V)) : bool :=
  bool_decide (is_Some (dict_get k m)).

Definition dict_keys (m : list (K * V)) : list K := m.*1.
Definition dict_values (m : list (K * V)) : list V := m.*2.
End Dict.

(** ** Outcomes of calls that may raise *)

Inductive Outcome (A : Type) : Type :=
| Returned (a : A)
| Raised.
Arguments Returned {A} a.
Arguments Raised {A}.

(** Python's [max(a, b)]: [b] only when [b > a]. *)
Definition py_max (a b : Q) : Q := if Qle_bool b a then a else b.

(** ** Entities and relationships *)

Module Entity.
(** The entity dict; [span] holds the "start" and "end" keys that only the
    spaCy entities carry. *)
Record t : Type := mk {
  text : string;
  label : string;
  span : option (Z * Z);
  confidence : Q;
  source : string
}.
End Entity.

Module Rel.
(** The relationship dict; "context" is present on co-occurrence
    relationships only. *)
Record t : Type := mk {
  source : string;
  target : string;
  relationship : string;
  confidence : Q;
  context : option string
}.
End Rel.

(** ** Graph fragments *)

Module FragNode.
(** A node of the fragment built for one recording; "full_text" is set on
    key-point nodes only. *)
Record t : Type := mk {
  id : string;
  label : string;
  type : string;
  confidence : Q;
  recording_id : Z;
  full_text : option string
}.
End FragNode.

Module FragEdge.
Record t : Type := mk {
  source : string;
  target : string;
  relationship : string;
  confidence : Q;
  recording_id : Z
}.
End FragEdge.

Module GraphData.
Record t : Type := mk {
  nodes : list FragNode.t;
  edges : list FragEdge.t;
  recording_id : Z
}.
End GraphData.

(** ** The NetworkX store *)

Module Node.
(** Attribute dict of a store node, as [add_node] is called. *)
Record t : Type := mk {
  label : string;
  type : string;
  confidence : Q;
  recording_id : Z
}.
End Node.

Module Edge.
(** Attribute dict of a store edge, as [add_edge] is called. *)
Record t : Type := mk {
  relationship : string;
  confidence : Q;
  recording_id : Z
}.
End Edge.

Module nx.

(** [_node]: node id to attributes; [_adj]: (source, target) to
    attributes.  Both keep insertion order, and re-insertion overwrites the
    attributes in place. *)
Record DiGraph : Type := mk {
  _node : list (string * Node.t);
  _adj : list (string * string * Edge.t)
}.

Definition empty : DiGraph := mk [] [].

Definition add_node (n : string) (attrs : Node.t) (G : DiGraph) : DiGraph :=
  mk (dict_set n attrs (_node G)) (_adj G).

Definition has_node (n : string) (G : DiGraph) : bool := dict_has n (_node G).

(** [add_edge] as the service uses it, with both endpoints present (on an
    absent endpoint NetworkX would create an attribute-less node, which
    the guard in [_add_to_networkx_graph] excludes). *)
Definition add_edge (u v : string) (attrs : Edge.t) (G : DiGraph) : DiGraph :=
  mk (_node G) (dict_set (u, v) attrs (_adj G)).

Definition has_edge (u v : string) (G : DiGraph) : bool :=
  dict_has (u, v) (_adj G).

Definition number_of_nodes (G : DiGraph) : nat := length (_node G).
Definition number_of_edges (G : DiGraph) : nat := length (_adj G).

(** [G.nodes(data=True)] *)
Definition nodes (G : DiGraph) : list (string * Node.t) := _node G.

(** The out-edges of [u], in insertion order. *)
Definition out_edges (G : DiGraph) (u : string) : list (string * string * Edge.t) :=
  filter (λ e, e.1.1 = u) (_adj G).

(** [G.edges(data=True)]: node by node, each node's out-edges. *)
Definition edges (G : DiGraph) : list (string * string * Edge.t) :=
  flat_map (λ nd, out_edges G nd.1) (_node G).

Definition successors (G : DiGraph) (u : string) : list string :=
  (λ e, e.1.2) <$> out_edges G u.

(** Breadth-first search; the queue holds reversed paths. *)
Fixpoint bfs (fuel : nat) (G : DiGraph) (target : string)
    (queue : list (list string)) (seen : list string) : option (list string) :=
  match fuel with
  | O => None
  | S fuel' =>
      match queue with
      | [] => None
      | [] :: queue' => bfs fuel' G target queue' seen
      | (u :: path) :: queue' =>
          if decide (u = target) then Some (reverse (u :: path))
          else
            let fresh := filter (λ v, v ∉ seen) (successors G u) in
            bfs fuel' G target
                (queue' ++ ((λ v, v :: u :: path) <$> fresh))
                (seen ++ fresh)
      end
  end.

(** [nx.shortest_path(G, source, target)] on store nodes: [None] stands
    for [NetworkXNoPath].  The fuel covers every store:
    [shortest_path_sound], [shortest_path_complete] and
    [shortest_path_minimal] show that the answer is a shortest directed
    walk whenever one exists.  Among walks of equal length the choice
    follows edge insertion order. *)
Definition shortest_path (G : DiGraph) (source target : string)
    : option (list string) :=
  bfs (2 + number_of_edges G) G target [[source]] [source].

End nx.

(** ** Collaborators *)

Module Span.
(** An entity span of a spaCy document. *)
Record t : Type := mk {
  text : string;
  label_ : string;
  start_char : Z;
  end_char : Z
}.
End Span.

Module ChatEntity.
(** An element of the JSON array the chat model answers with. *)
Record t : Type := mk {
  text : string;
  type : string;
  importance : option Q
}.
End ChatEntity.

(** [nlp] is [None] when the spaCy model could not be loaded.
    [chat_entities] is the whole [try] block of
    [_extract_entities_with_openai] up to the parsed array, as a function of
    the text interpolated into the prompt. *)
Record Collaborators : Type := {
  nlp : option (string → Outcome (list Span.t));
  chat_entities : string → Outcome (list ChatEntity.t)
}.

(** ** Results *)

Module RelevantNode.
Record t : Type := mk {
  id : string;
  label : string;
  type : string;
  confidence : Q
}.
End RelevantNode.

Module Concept.
Record t : Type := mk {
  concept : string;
  type : string;
  connection : string
}.
End Concept.

Module QueryResult.
(** The dict [query_knowledge_graph] returns; [graph_stats] is [None]
    when the key is absent, else (total_nodes, total_edges). *)
Record t : Type := mk {
  relevant_nodes : list RelevantNode.t;
  paths : list (list string);
  related_concepts : list Concept.t;
  graph_stats : option (nat * nat)
}.
End QueryResult.

Module Summary.
Record t : Type := mk {
  total_entities : nat;
  total_relationships : nat;
  entity_types : list (string * nat);
  relationship_types : list (string * nat);
  recordings_covered : nat
}.
End Summary.

Module BuildResult.
(** The dict [build_knowledge_graph] returns; [graph_data] is [None] for
    the empty dict of the failure branch. *)
Record t : Type := mk {
  entities : nat;
  relationships : nat;
  graph_data : option GraphData.t
}.
End BuildResult.

(** The chat call of [_extract_relationships_with_openai]: the [try] block
    up to the parsed array, as a function of the entity names and the text
    interpolated into the prompt. *)
Definition ChatRelationships : Type := list string → string → Outcome (list Rel.t).

Module GraphRAGService.

(** *** [_deduplicate_entities] *)

Definition entity_key (entity : Entity.t) : string :=
  PyStr.strip (PyStr.lower (Entity.text entity)).

(** The collision branch: the stored dict is updated in place. *)
Definition merge_entity (existing entity : Entity.t) : Entity.t :=
  {| Entity.text := Entity.text existing;
     Entity.label :=
       if decide (Entity.source entity = "openai")
       then Entity.label entity else Entity.label existing;
     Entity.span := Entity.span existing;
     Entity.confidence :=
       py_max (Entity.confidence existing) (Entity.confidence entity);
     Entity.source := Entity.source existing |}.

(** One iteration of the loop over [entities]. *)
Definition dedup_entity_step (entity_map : list (string * Entity.t))
    (entity : Entity.t) : list (string * Entity.t) :=
  let key := entity_key entity in
  match dict_get key entity_map with
  | Some existing => dict_set key (merge_entity existing entity) entity_map
  | None => dict_set key entity entity_map
  end.

Definition entity_map_of (entities : list Entity.t) : list (string * Entity.t) :=
  fold_left dedup_entity_step entities [].

Definition _deduplicate_entities (entities : list Entity.t) : list Entity.t :=
  dict_values (entity_map_of entities).

(** *** [_deduplicate_relationships] *)

Definition rel_key (rel : Rel.t) : string * string * string :=
  (PyStr.lower (Rel.source rel), PyStr.lower (Rel.target rel),
   Rel.relationship rel).

Definition dedup_rel_step
    (st : gset (string * string * string) * list Rel.t) (rel : Rel.t)
    : gset (string * string * string) * list Rel.t :=
  let '(seen, unique_rels) := st in
  let key := rel_key rel in
  if decide (key ∈ seen) then (seen, unique_rels)
  else ({[ key ]} ∪ seen, unique_rels ++ [rel]).

Definition _deduplicate_relationships (relationships : list Rel.t) : list Rel.t :=
  (fold_left dedup_rel_step relationships (∅, [])).2.

(** *** [_extract_entities_with_openai], [_extract_entities] *)

Definition _extract_entities_with_openai (C : Collaborators) (text : string)
    : list Entity.t :=
  match chat_entities C (String.substring 0 2000 text) with
  | Returned entities_data =>
      (λ entity,
         {| Entity.text := ChatEntity.text entity;
            Entity.label := ChatEntity.type entity;
            Entity.span := None;
            Entity.confidence := default (1 # 2) (ChatEntity.importance entity);
            Entity.source := "openai" |}) <$> entities_data
  | Raised => []
  end.

Definition spacy_entity (ent : Span.t) : Entity.t :=
  {| Entity.text := Span.text ent;
     Entity.label := Span.label_ ent;
     Entity.span := Some (Span.start_char ent, Span.end_char ent);
     Entity.confidence := 1;
     Entity.source := "spacy" |}.

Definition _extract_entities (C : Collaborators) (text : string)
    : Outcome (list Entity.t) :=
  match nlp C with
  | Some pipeline =>
      match pipeline text with
      | Returned ents =>
          Returned (_deduplicate_entities
                      ((spacy_entity <$> ents) ++ _extract_entities_with_openai C text))
      | Raised => Raised
      end
  | None => Returned (_deduplicate_entities ([] ++ _extract_entities_with_openai C text))
  end.

(** *** [_build_graph_structure] *)

Definition str_of_int (z : Z) : string := NilZero.string_of_int (Z.to_int z).

Definition key_point_node (recording_id : Z) (i : nat) (point : string)
    : FragNode.t :=
  {| FragNode.id :=
       "keypoint_" ++ str_of_int recording_id ++ "_" ++ str_of_int (Z.of_nat i);
     FragNode.label :=
       if (50 <? String.length point)%nat
       then String.substring 0 50 point ++ "..." else point;
     FragNode.type := "KEY_POINT";
     FragNode.confidence := 1;
     FragNode.recording_id := recording_id;
     FragNode.full_text := Some point |}.

Definition _build_graph_structure (recording_id : Z) (entities : list Entity.t)
    (relationships : list Rel.t) (key_points : list string) : GraphData.t :=
  let nodes :=
    ((λ entity,
        {| FragNode.id := Entity.text entity;
           FragNode.label := Entity.text entity;
           FragNode.type := Entity.label entity;
           FragNode.confidence := Entity.confidence entity;
           FragNode.recording_id := recording_id;
           FragNode.full_text := None |}) <$> entities)
    ++ imap (key_point_node recording_id) key_points in
  let edges :=
    (λ rel,
       {| FragEdge.source := Rel.source rel;
          FragEdge.target := Rel.target rel;
          FragEdge.relationship := Rel.relationship rel;
          FragEdge.confidence := Rel.confidence rel;
          FragEdge.recording_id := recording_id |}) <$> relationships in
  {| GraphData.nodes := nodes;
     GraphData.edges := edges;
     GraphData.recording_id := recording_id |}.

(** *** [_add_to_networkx_graph] *)

Definition add_fragment_node (recording_id : Z) (G : nx.DiGraph)
    (node : FragNode.t) : nx.DiGraph :=
  nx.add_node (FragNode.id node)
    {| Node.label := FragNode.label node;
       Node.type := FragNode.type node;
       Node.confidence := FragNode.confidence node;
       Node.recording_id := recording_id |} G.

Definition add_fragment_edge (recording_id : Z) (G : nx.DiGraph)
    (edge : FragEdge.t) : nx.DiGraph :=
  if nx.has_node (FragEdge.source edge) G && nx.has_node (FragEdge.target edge) G
  then nx.add_edge (FragEdge.source edge) (FragEdge.target edge)
         {| Edge.relationship := FragEdge.relationship edge;
            Edge.confidence := FragEdge.confidence edge;
            Edge.recording_id := recording_id |} G
  else G.

Definition _add_to_networkx_graph (recording_id : Z) (graph_data : GraphData.t)
    (G : nx.DiGraph) : nx.DiGraph :=
  let G1 := fold_left (add_fragment_node recording_id) (GraphData.nodes graph_data) G in
  fold_left (add_fragment_edge recording_id) (GraphData.edges graph_data) G1.

(** *** [query_knowledge_graph] and [_get_related_concepts] *)

(** Truth value of an [Optional[int]]. *)
Definition truthy (recording_id : option Z) : bool :=
  match recording_id with
  | Some z => negb (z =? 0)%Z
  | None => false
  end.

(** [node_data.get("recording_id") != recording_id] *)
Definition rid_differs (attr : Z) (recording_id : option Z) : bool :=
  negb (bool_decide (Some attr = recording_id)).

Definition node_matches (query_terms : list string) (node_label : string) : bool :=
  existsb (λ term, PyStr.contains term node_label) query_terms
  || existsb (λ term, PyStr.contains node_label term) query_terms.

(** The scan for relevant nodes, one store node at a time. *)
Definition scan_node (query_terms : list string) (recording_id : option Z)
    (nd : string * Node.t) : list RelevantNode.t :=
  let '(node_id, node_data) := nd in
  if truthy recording_id && rid_differs (Node.recording_id node_data) recording_id
  then []
  else
    let node_label := PyStr.lower (Node.label node_data) in
    if node_matches query_terms node_label
    then [ {| RelevantNode.id := node_id;
              RelevantNode.label := Node.label node_data;
              RelevantNode.type := Node.type node_data;
              RelevantNode.confidence := Node.confidence node_data |} ]
    else [].

Definition find_relevant_nodes (G : nx.DiGraph) (query_terms : list string)
    (recording_id : option Z) : list RelevantNode.t :=
  flat_map (scan_node query_terms recording_id) (nx.nodes G).

(** The body of the pair loop: a missing path appends nothing. *)
Definition path_between (G : nx.DiGraph) (relevant_nodes : list RelevantNode.t)
    (i j : nat) : list (list string) :=
  match relevant_nodes !! i, relevant_nodes !! j with
  | Some a, Some b =>
      match nx.shortest_path G (RelevantNode.id a) (RelevantNode.id b) with
      | Some path => [path]
      | None => []
      end
  | _, _ => []
  end.

(** [for i in range(len(r)): for j in range(i+1, len(r)): ...] *)
Definition find_paths (G : nx.DiGraph) (relevant_nodes : list RelevantNode.t)
    : list (list string) :=
  let n := length relevant_nodes in
  if (1 <? n)%nat
  then flat_map (λ i, flat_map (path_between G relevant_nodes i) (seq (S i) (n - S i)))
         (seq 0 n)
  else [].

Definition _get_related_concepts (G : nx.DiGraph) (query_terms : list string)
    : list Concept.t :=
  flat_map
    (λ nd : string * Node.t,
       let '(node_id, node_data) := nd in
       if existsb
            (λ term, nx.has_node term G
                     && (nx.has_edge term node_id G || nx.has_edge node_id term G))
            query_terms
       then [ {| Concept.concept := Node.label node_data;
                 Concept.type := Node.type node_data;
                 Concept.connection := "direct" |} ]
       else [])
    (nx.nodes G).

(** The [try] block. *)
Definition query_body (C : Collaborators) (G : nx.DiGraph) (query : string)
    (recording_id : option Z) : Outcome QueryResult.t :=
  match _extract_entities C query with
  | Raised => Raised
  | Returned query_entities =>
      let query_terms := (λ e, PyStr.lower (Entity.text e)) <$> query_entities in
      let relevant_nodes := find_relevant_nodes G query_terms recording_id in
      let paths := find_paths G relevant_nodes in
      let related_concepts := _get_related_concepts G query_terms in
      Returned
        {| QueryResult.relevant_nodes := take 10 relevant_nodes;
           QueryResult.paths := take 5 paths;
           QueryResult.related_concepts := take 10 related_concepts;
           QueryResult.graph_stats :=
             Some (nx.number_of_nodes G, nx.number_of_edges G) |}
  end.

(** The [except Exception] branch. *)
Definition query_fallback : QueryResult.t :=
  {| QueryResult.relevant_nodes := [];
     QueryResult.paths := [];
     QueryResult.related_concepts := [];
     QueryResult.graph_stats := None |}.

Definition query_knowledge_graph (C : Collaborators) (G : nx.DiGraph)
    (query : string) (recording_id : option Z) : QueryResult.t :=
  match query_body C G query recording_id with
  | Returned result => result
  | Raised => query_fallback
  end.

(** *** [get_graph_summary] *)

(** [Counter(l)] turned into a dict: keys in order of first occurrence. *)
Definition counter (l : list string) : list (string * nat) :=
  fold_left (λ m x, dict_set x (S (default 0%nat (dict_get x m))) m) l [].

Definition get_graph_summary (G : nx.DiGraph) (recording_id : option Z)
    : Summary.t :=
  let nodes :=
    if truthy recording_id
    then filter (λ nd, Some (Node.recording_id nd.2) = recording_id) (nx.nodes G)
    else nx.nodes G in
  let edges :=
    if truthy recording_id
    then filter (λ e, Some (Edge.recording_id e.2) = recording_id) (nx.edges G)
    else nx.edges G in
  let entity_types := counter ((λ nd, Node.type nd.2) <$> nodes) in
  let relationship_types := counter ((λ e, Edge.relationship e.2) <$> edges) in
  {| Summary.total_entities := length nodes;
     Summary.total_relationships := length edges;
     Summary.entity_types := entity_types;
     Summary.relationship_types := relationship_types;
     Summary.recordings_covered :=
       size (list_to_set
               (filter (λ r, r ≠ 0%Z) ((λ nd, Node.recording_id nd.2) <$> nodes))
             : gset Z) |}.

(** *** [_extract_relationships_with_openai], [_extract_relationships] *)

Definition _extract_relationships_with_openai (chat : ChatRelationships)
    (text : string) (entities : list string) : list Rel.t :=
  if (length entities <? 2)%nat then []
  else
    match chat (take 20 entities) (String.substring 0 1500 text) with
    | Returned rels => rels
    | Raised => []
    end.

(** The relationships one sentence contributes: [enumerate] over the
    entities found in it, each paired with the ones after it. *)
Definition sentence_relationships (entity_texts : list string) (sentence : string)
    : list Rel.t :=
  let sentence_entities :=
    filter (λ e, PyStr.contains (PyStr.lower e) (PyStr.lower sentence) = true)
           entity_texts in
  flat_map
    (λ ie : nat * string,
       (λ entity2,
          {| Rel.source := ie.2;
             Rel.target := entity2;
             Rel.relationship := "mentioned_together";
             Rel.confidence := 7 # 10;
             Rel.context := Some (PyStr.strip sentence) |})
         <$> drop (S ie.1) sentence_entities)
    (imap pair sentence_entities).

Definition _extract_relationships (chat : ChatRelationships) (text : string)
    (entities : list Entity.t) : list Rel.t :=
  let entity_texts := Entity.text <$> entities in
  let sentences := PyStr.split "." text in
  let relationships := flat_map (sentence_relationships entity_texts) sentences in
  let enhanced_rels := _extract_relationships_with_openai chat text entity_texts in
  _deduplicate_relationships (relationships ++ enhanced_rels).

(** *** [build_knowledge_graph] *)

(** The result and the store after the call. *)
Definition build_knowledge_graph (C : Collaborators) (chat : ChatRelationships)
    (recording_id : Z) (transcript summary : string) (key_points : list string)
    (G : nx.DiGraph) : BuildResult.t * nx.DiGraph :=
  match _extract_entities C (transcript ++ " " ++ summary) with
  | Returned entities =>
      let relationships := _extract_relationships chat transcript entities in
      let graph_data :=
        _build_graph_structure recording_id entities relationships key_points in
      ({| BuildResult.entities := length entities;
          BuildResult.relationships := length relationships;
          BuildResult.graph_data := Some graph_data |},
       _add_to_networkx_graph recording_id graph_data G)
  | Raised =>
      ({| BuildResult.entities := 0;
          BuildResult.relationships := 0;
          BuildResult.graph_data := None |}, G)
  end.

End GraphRAGService.

(** * Specification-side definitions

    Invariants, the specification's own wording of a notion where it
    differs from the code, and the sample stores and collaborators used
    below. *)

Import GraphRAGService.

(** Every binding of the map is filed under the identity key of its
    entity. *)
Definition keyed (entity_map : list (string * Entity.t)) : Prop :=
  Forall (λ p, p.1 = entity_key p.2) entity_map.

(** The loop invariant: [seen] holds exactly the keys of [unique_rels],
    each once. *)
Definition rel_inv (st : gset (string * string * string) * list Rel.t) : Prop :=
  (∀ k, k ∈ st.1 ↔ k ∈ rel_key <$> st.2) ∧ NoDup (rel_key <$> st.2).

(** The deduplicator treats [r2] as the same edge as an earlier [r1] when
    it drops [r2]. *)
Definition same_edge (r1 r2 : Rel.t) : Prop :=
  _deduplicate_relationships [r1; r2] = [r1].

(** The identity key as the specification words it: every component
    lower-cased and trimmed. *)
Definition spec_rel_key (rel : Rel.t) : string * string * string :=
  (PyStr.strip (PyStr.lower (Rel.source rel)),
   PyStr.strip (PyStr.lower (Rel.target rel)),
   PyStr.strip (PyStr.lower (Rel.relationship rel))).

(** No edge of the store refers to an absent node. *)
Definition edges_closed (G : nx.DiGraph) : Prop :=
  Forall (λ e, nx.has_node e.1.1 G = true ∧ nx.has_node e.1.2 G = true)
         (nx._adj G).

(** The stores the service can hold: the empty graph of [__init__], grown
    by merges. *)
Inductive reachable : nx.DiGraph → Prop :=
| reachable_init : reachable nx.empty
| reachable_merge recording_id graph_data G :
    reachable G → reachable (_add_to_networkx_graph recording_id graph_data G).

(** The store with exactly the nodes A, B, C and the edges A → B, B → C. *)
Definition chain_store (A B C : string) (dA dB dC : Node.t) (dAB dBC : Edge.t)
    : nx.DiGraph :=
  nx.mk [(A, dA); (B, dB); (C, dC)] [(A, B, dAB); (B, C, dBC)].

(** [walk G u w p]: [p] lists the nodes of a directed walk from [u] to [w]. *)
Inductive walk (G : nx.DiGraph) : string → string → list string → Prop :=
| walk_one u : walk G u u [u]
| walk_cons u v w p :
    nx.has_edge u v G = true → walk G v w p → walk G u w (u :: p).

(** Every queued entry is a walk from the source, written backwards. *)
Definition queue_ok (G : nx.DiGraph) (source : string) (queue : list (list string))
    : Prop :=
  Forall (λ q, match q with
               | [] => True
               | u :: path => walk G source u (reverse (u :: path))
               end) queue.

(** The edge targets not yet seen: the measure of the search. *)
Definition unseen (G : nx.DiGraph) (seen : list string) : list string :=
  filter (λ v, v ∉ seen) ((λ e, e.1.2) <$> nx._adj G).

(** The heads of the queued entries: the nodes waiting to be expanded. *)
Definition pending (queue : list (list string)) : list string :=
  flat_map (λ q, option_list (head q)) queue.

(** [y] has been taken from the queue: it is not the target and its
    successors are all seen. *)
Definition expanded (G : nx.DiGraph) (target : string) (seen : list string)
    (y : string) : Prop :=
  y ≠ target ∧ ∀ z, z ∈ nx.successors G y → z ∈ seen.

(** A seen node waits in the queue or has been expanded. *)
Definition search_inv (G : nx.DiGraph) (target : string)
    (queue : list (list string)) (seen : list string) : Prop :=
  ∀ x, x ∈ seen → x ∈ pending queue ∨ expanded G target seen x.

(** A queued entry is a walk from the source, written backwards, and no
    walk to its head is shorter. *)
Definition entry_min (G : nx.DiGraph) (source : string) (q : list string) : Prop :=
  match q with
  | [] => False
  | u :: path =>
      walk G source u (reverse q)
      ∧ ∀ w, walk G source u w → (length q ≤ length w)%nat
  end.

(** The queue holds one level of the search, followed by the next. *)
Fixpoint levels_ok (queue : list (list string)) : Prop :=
  match queue with
  | [] => True
  | q1 :: rest =>
      Forall (λ q, (length q1 ≤ length q ≤ S (length q1))%nat) rest ∧ levels_ok rest
  end.

(** Every node nearer than the first queued entry is expanded. *)
Definition level_done (G : nx.DiGraph) (source target : string)
    (queue : list (list string)) (seen : list string) : Prop :=
  match queue with
  | [] => True
  | q1 :: _ =>
      ∀ y w, walk G source y w → (length w < length q1)%nat → expanded G target seen y
  end.

(** The pairs (l[i], l[j]), i < j, in the order of the two nested loops. *)
Fixpoint pairs_in_order {A : Type} (l : list A) : list (A * A) :=
  match l with
  | [] => []
  | a :: rest => ((λ b, (a, b)) <$> rest) ++ pairs_in_order rest
  end.

(** The lookup for one pair of matched nodes: a missing path gives nothing. *)
Definition path_of_pair (G : nx.DiGraph) (p : RelevantNode.t * RelevantNode.t)
    : list (list string) :=
  option_list (nx.shortest_path G (RelevantNode.id p.1) (RelevantNode.id p.2)).

(** The two index loops, without the guard on the length. *)
Definition pair_loops (G : nx.DiGraph) (l : list RelevantNode.t) : list (list string) :=
  flat_map (λ i, flat_map (path_between G l i) (seq (S i) (length l - S i)))
           (seq 0 (length l)).

(** The spaCy pipeline is the one call of the [try] block that can raise:
    the chat call has its own handler inside [_extract_entities_with_openai]. *)
Definition extraction_raises (C : Collaborators) (query : string) : bool :=
  match nlp C with
  | Some pipeline => match pipeline query with Raised => true | Returned _ => false end
  | None => false
  end.

(** A store with one node, and a pipeline that rejects the text. *)
Definition one_node_store : nx.DiGraph :=
  _add_to_networkx_graph 1
    (_build_graph_structure 1 [Entity.mk "Budget" "CONCEPT" None 1 "spacy"] [] [])
    nx.empty.

Definition failing_pipeline : Collaborators :=
  {| nlp := Some (λ _, Raised); chat_entities := λ _, Returned [] |}.

(** The paths the specification describes: pairs among the first ten
    matched nodes only. *)
Definition spec_paths (G : nx.DiGraph) (matched : list RelevantNode.t)
    : list (list string) :=
  take 5 (flat_map (path_of_pair G) (pairs_in_order (take 10 matched))).

(** Eleven nodes n0 .. n10 that all match the term "n", and one edge from
    the first to the eleventh. *)
Definition eleven_nodes : nx.DiGraph :=
  _add_to_networkx_graph 1
    (_build_graph_structure 1
       ((λ t, Entity.mk t "CONCEPT" None 1 "spacy")
          <$> ["n0"; "n1"; "n2"; "n3"; "n4"; "n5"; "n6"; "n7"; "n8"; "n9"; "n10"])
       [Rel.mk "n0" "n10" "leads" (7 # 10) None] [])
    nx.empty.

Definition term_n : Collaborators :=
  {| nlp := None; chat_entities := λ _, Returned [ChatEntity.mk "n" "CONCEPT" None] |}.

(** The node set a summary ranges over: the nodes of the recording when a
    non-zero id is given, all store nodes otherwise. *)
Definition summary_nodes (G : nx.DiGraph) (recording_id : option Z)
    : list (string * Node.t) :=
  match recording_id with
  | Some z => if decide (z = 0%Z) then nx.nodes G
              else filter (λ nd, Node.recording_id nd.2 = z) (nx.nodes G)
  | None => nx.nodes G
  end.

(** The distinct recording ids of a node list. *)
Definition recording_ids (nodes : list (string * Node.t)) : gset Z :=
  list_to_set ((λ nd, Node.recording_id nd.2) <$> nodes).

(** The store after the first build of the upload pipeline, which passes the
    placeholder id 0. *)
Definition placeholder_store : nx.DiGraph :=
  _add_to_networkx_graph 0
    (_build_graph_structure 0 [Entity.mk "Budget" "CONCEPT" None 1 "spacy"] []
       ["Approve the budget"])
    nx.empty.

Definition ada_store : nx.DiGraph :=
  _add_to_networkx_graph 1
    (_build_graph_structure 1
       [Entity.mk "Ada" "PERSON" None 1 "spacy";
        Entity.mk "Graph" "CONCEPT" None (4 # 5) "openai"]
       [Rel.mk "Ada" "Graph" "discusses" (7 # 10) None] [])
    nx.empty.

(** [c] occurs in [s]. *)
Fixpoint occurs (c : ascii) (s : string) : bool :=
  match s with
  | EmptyString => false
  | String c' s' => Ascii.eqb c c' || occurs c s'
  end.

(** The co-occurrence relationship between two entity names of a sentence. *)
Definition mentioned_together (sentence source target : string) : Rel.t :=
  {| Rel.source := source;
     Rel.target := target;
     Rel.relationship := "mentioned_together";
     Rel.confidence := 7 # 10;
     Rel.context := Some (PyStr.strip sentence) |}.

(** The entity names that occur in a sentence, case-insensitively. *)
Definition sentence_entities (entity_texts : list string) (sentence : string)
    : list string :=
  filter (λ e, PyStr.contains (PyStr.lower e) (PyStr.lower sentence) = true)
         entity_texts.

(** [sub] is a contiguous part of [s]. *)
Definition substring_of (sub s : string) : Prop :=
  ∃ pre post, s = pre +:+ sub +:+ post.

(** The entry the scan appends for a store node. *)
Definition relevant_entry (nd : string * Node.t) : RelevantNode.t :=
  {| RelevantNode.id := nd.1;
     RelevantNode.label := Node.label nd.2;
     RelevantNode.type := Node.type nd.2;
     RelevantNode.confidence := Node.confidence nd.2 |}.

(** The entry [_get_related_concepts] appends for a store node. *)
Definition concept_entry (nd : string * Node.t) : Concept.t :=
  {| Concept.concept := Node.label nd.2;
     Concept.type := Node.type nd.2;
     Concept.connection := "direct" |}.

(** The edge set a summary ranges over: the edges tagged with the recording
    when a non-zero id is given, all store edges otherwise. *)
Definition summary_edges (G : nx.DiGraph) (recording_id : option Z)
    : list (string * string * Edge.t) :=
  match recording_id with
  | Some z => if decide (z = 0%Z) then nx.edges G
              else filter (λ e, Edge.recording_id e.2 = z) (nx.edges G)
  | None => nx.edges G
  end.

(** How often [x] occurs in [l]. *)
Definition occurrences (x : string) (l : list string) : nat :=
  length (filter (λ y, y = x) l).

(** One update of the counter. *)
Definition counter_step (m : list (string * nat)) (x : string) : list (string * nat) :=
  dict_set x (S (default 0%nat (dict_get x m))) m.

(** The label the entity deduplicator ends with for the entities of one
    key, in arrival order: the label of the last "openai" entity, or, when
    there is none, the label of the first entity. *)
Definition final_label (same_key : list Entity.t) : option string :=
  match last (filter (λ e, Entity.source e = "openai") same_key) with
  | Some e => Some (Entity.label e)
  | None => Entity.label <$> head same_key
  end.

(** A run of dictionary assignments. *)
Definition dict_set_all {K V : Type} `{EqDecision K} (kvs : list (K * V))
    (m : list (K * V)) : list (K * V) :=
  fold_left (λ m kv, dict_set kv.1 kv.2 m) kvs m.

(** The assignment [add_fragment_node] makes. *)
Definition node_assignment (rid : Z) (node : FragNode.t) : string * Node.t :=
  (FragNode.id node,
   {| Node.label := FragNode.label node;
      Node.type := FragNode.type node;
      Node.confidence := FragNode.confidence node;
      Node.recording_id := rid |}).

(** The assignment [add_fragment_edge] makes when the guard holds. *)
Definition edge_assignment (rid : Z) (edge : FragEdge.t) : string * string * Edge.t :=
  (FragEdge.source edge, FragEdge.target edge,
   {| Edge.relationship := FragEdge.relationship edge;
      Edge.confidence := FragEdge.confidence edge;
      Edge.recording_id := rid |}).

(** The entity made from one element of the chat model's answer. *)
Definition chat_entity (item : ChatEntity.t) : Entity.t :=
  {| Entity.text := ChatEntity.text item;
     Entity.label := ChatEntity.type item;
     Entity.span := None;
     Entity.confidence := default (1 # 2) (ChatEntity.importance item);
     Entity.source := "openai" |}.

(** * Properties *)

(** ** Dictionaries *)

Section DictFacts.
Context {K V : Type} `{EqDecision K}.
Implicit Types (m : list (K * V)) (k : K) (v : V).

Lemma dict_get_None m k : dict_get k m = None ↔ k ∉ dict_keys m.
Proof.
  unfold dict_keys. induction m as [|[k' v'] m IH]; simpl.
  - split; [intros _; apply not_elem_of_nil | done].
  - rewrite not_elem_of_cons. destruct (decide (k = k')) as [->|Hne].
    + split; [done | intros [? _]; done].
    + rewrite IH. tauto.
Qed.

Lemma dict_get_Some_elem m k v : dict_get k m = Some v → (k, v) ∈ m.
Proof.
  induction m as [|[k' v'] m IH]; simpl; [done|].
  destruct (decide (k = k')) as [->|]; intros Hg.
  - injection Hg as ->. apply elem_of_cons; auto.
  - apply elem_of_cons; auto.
Qed.

Lemma dict_get_set m k k' v :
  dict_get k' (dict_set k v m) = if decide (k' = k) then Some v else dict_get k' m.
Proof.
  induction m as [|[k0 v0] m IH]; simpl.
  - destruct (decide (k' = k)); done.
  - destruct (decide (k = k0)) as [->|Hne]; simpl.
    + destruct (decide (k' = k0)); done.
    + destruct (decide (k' = k0)) as [->|].
      * destruct (decide (k0 = k)); congruence.
      * apply IH.
Qed.

Lemma dict_set_fresh m k v : k ∉ dict_keys m → dict_set k v m = m ++ [(k, v)].
Proof.
  unfold dict_keys. induction m as [|[k0 v0] m IH]; simpl; [done|].
  rewrite not_elem_of_cons. intros [Hne Hnin].
  destruct (decide (k = k0)); [done|]. by rewrite IH.
Qed.

Lemma dict_keys_set_present m k v :
  k ∈ dict_keys m → dict_keys (dict_set k v m) = dict_keys m.
Proof.
  unfold dict_keys. induction m as [|[k0 v0] m IH]; simpl.
  - intros Hin. by apply elem_of_nil in Hin.
  - intros Hin. destruct (decide (k = k0)) as [->|Hne]; simpl; [done|].
    apply elem_of_cons in Hin as [?|Hin]; [done|]. f_equal. by apply IH.
Qed.

Lemma dict_keys_set m k v :
  dict_keys (dict_set k v m)
  = if decide (k ∈ dict_keys m) then dict_keys m else dict_keys m ++ [k].
Proof.
  destruct (decide (k ∈ dict_keys m)) as [Hin|Hnin].
  - by apply dict_keys_set_present.
  - rewrite dict_set_fresh by done. unfold dict_keys. by rewrite fmap_app.
Qed.

Lemma dict_set_length_present m k v :
  k ∈ dict_keys m → length (dict_set k v m) = length m.
Proof.
  intros Hin. apply (dict_keys_set_present m k v) in Hin.
  apply (f_equal length) in Hin. unfold dict_keys in Hin.
  by rewrite !length_fmap in Hin.
Qed.

Lemma dict_has_true m k : dict_has k m = true ↔ k ∈ dict_keys m.
Proof.
  unfold dict_has. rewrite bool_decide_eq_true.
  destruct (dict_get k m) as [v|] eqn:Hg.
  - split; [intros _|eauto].
    destruct (decide (k ∈ dict_keys m)) as [|Hn]; [done|].
    apply dict_get_None in Hn. congruence.
  - split; [intros [? ?]; done|]. intros Hin.
    apply dict_get_None in Hg. done.
Qed.

Lemma dict_keys_set_NoDup m k v :
  NoDup (dict_keys m) → NoDup (dict_keys (dict_set k v m)).
Proof.
  intros Hnd. rewrite dict_keys_set. case_decide; [done|].
  apply NoDup_app. split_and!; [done| |apply NoDup_singleton].
  intros x Hx Hx'. apply list_elem_of_singleton in Hx'. by subst.
Qed.
End DictFacts.

(** ** Entity deduplication *)

Lemma py_max_Qmax a b : py_max a b == Qmax a b.
Proof.
  unfold py_max. destruct (Qle_bool b a) eqn:Hle.
  - apply Qle_bool_iff in Hle. symmetry. by apply Q.max_l.
  - symmetry. apply Q.max_r. apply Qlt_le_weak, Qnot_le_lt.
    intros Hle'. apply Qle_bool_iff in Hle'. congruence.
Qed.

Lemma py_max_cases a b :
  (py_max a b = a ∧ (b <= a)%Q) ∨ (py_max a b = b ∧ (a < b)%Q).
Proof.
  unfold py_max. destruct (Qle_bool b a) eqn:Hle.
  - left. split; [done|]. by apply Qle_bool_iff.
  - right. split; [done|]. apply Qnot_le_lt.
    intros Hle'. apply Qle_bool_iff in Hle'. congruence.
Qed.

Lemma merge_entity_key existing entity :
  entity_key (merge_entity existing entity) = entity_key existing.
Proof. reflexivity. Qed.

Lemma keyed_dict_set m k e :
  keyed m → k = entity_key e → keyed (dict_set k e m).
Proof.
  unfold keyed. induction m as [|[k0 e0] m IH]; simpl; intros Hm Hk.
  - by constructor.
  - inversion_clear Hm as [|? ? Hhd Htl].
    destruct (decide (k = k0)) as [->|Hne]; constructor; simpl in *; auto.
Qed.

Lemma dedup_entity_step_keyed m e : keyed m → keyed (dedup_entity_step m e).
Proof.
  intros Hm. unfold dedup_entity_step.
  destruct (dict_get (entity_key e) m) as [existing|] eqn:Hg.
  - apply keyed_dict_set; [done|]. rewrite merge_entity_key.
    apply dict_get_Some_elem in Hg.
    unfold keyed in Hm. rewrite Forall_forall in Hm. by apply (Hm _ Hg).
  - by apply keyed_dict_set.
Qed.

Lemma dedup_entity_step_NoDup m e :
  NoDup (dict_keys m) → NoDup (dict_keys (dedup_entity_step m e)).
Proof.
  intros Hm. unfold dedup_entity_step.
  destruct (dict_get (entity_key e) m); by apply dict_keys_set_NoDup.
Qed.

Lemma entity_fold_invariant l m :
  keyed m → NoDup (dict_keys m) →
  keyed (fold_left dedup_entity_step l m)
  ∧ NoDup (dict_keys (fold_left dedup_entity_step l m)).
Proof.
  revert m. induction l as [|e l IH]; simpl; intros m Hk Hn; [done|].
  apply IH; [by apply dedup_entity_step_keyed | by apply dedup_entity_step_NoDup].
Qed.

Lemma entity_map_of_invariant l :
  keyed (entity_map_of l) ∧ NoDup (dict_keys (entity_map_of l)).
Proof. apply entity_fold_invariant; [constructor | apply NoDup_nil_2]. Qed.

(** Feeding the values of a well-keyed map back in appends them one by one:
    no key collides. *)
Lemma entity_fold_values m1 m2 :
  keyed m2 → NoDup (dict_keys (m1 ++ m2)) →
  fold_left dedup_entity_step (dict_values m2) m1 = m1 ++ m2.
Proof.
  revert m1. induction m2 as [|[k e] m2 IH]; intros m1 Hk Hn.
  - by rewrite app_nil_r.
  - inversion_clear Hk as [|? ? Hhd Htl]. simpl in Hhd. subst k.
    unfold dict_values. rewrite fmap_cons. simpl.
    assert (Hfresh : entity_key e ∉ dict_keys m1).
    { unfold dict_keys in *. rewrite fmap_app in Hn.
      apply NoDup_app in Hn as (_ & Hdisj & _).
      intros Hin. apply (Hdisj _ Hin). rewrite fmap_cons. apply elem_of_cons; auto. }
    unfold dedup_entity_step at 2.
    rewrite (proj2 (dict_get_None m1 _) Hfresh).
    rewrite dict_set_fresh by done.
    fold (dict_values m2). rewrite IH; [by rewrite <- app_assoc | done |].
    by rewrite <- app_assoc.
Qed.

Lemma dedup_entities_idem X :
  _deduplicate_entities (_deduplicate_entities X) = _deduplicate_entities X.
Proof.
  unfold _deduplicate_entities at 1 3. unfold entity_map_of at 1.
  destruct (entity_map_of_invariant X) as [Hk Hn].
  unfold _deduplicate_entities.
  rewrite (entity_fold_values [] (entity_map_of X)); done.
Qed.

(** ** Relationship deduplication *)

Lemma dedup_rel_step_inv st rel : rel_inv st → rel_inv (dedup_rel_step st rel).
Proof.
  destruct st as [seen acc]. unfold rel_inv, dedup_rel_step. simpl.
  intros [Hseen Hnd]. destruct (decide (rel_key rel ∈ seen)) as [Hin|Hnin]; simpl.
  - done.
  - split.
    + intros k. rewrite fmap_app, elem_of_app, elem_of_union, elem_of_singleton.
      rewrite Hseen. simpl. rewrite list_elem_of_singleton. tauto.
    + rewrite fmap_app. apply NoDup_app. split_and!; [done| |apply NoDup_singleton].
      intros k Hk Hk'. simpl in Hk'. apply list_elem_of_singleton in Hk'. subst k.
      apply Hnin, Hseen, Hk.
Qed.

Lemma rel_fold_inv l st : rel_inv st → rel_inv (fold_left dedup_rel_step l st).
Proof.
  revert st. induction l as [|r l IH]; simpl; intros st Hst; [done|].
  by apply IH, dedup_rel_step_inv.
Qed.

Lemma rel_inv_init : rel_inv (∅, []).
Proof.
  split; simpl; [|apply NoDup_nil_2].
  intros k. split; intros Hk; [by apply not_elem_of_empty in Hk | by apply elem_of_nil in Hk].
Qed.

(** Relationships with pairwise distinct keys, none of them seen, are all
    appended. *)
Lemma rel_fold_distinct l seen acc :
  NoDup (rel_key <$> l) → (∀ r, r ∈ l → rel_key r ∉ seen) →
  (fold_left dedup_rel_step l (seen, acc)).2 = acc ++ l.
Proof.
  revert seen acc. induction l as [|r l IH]; csimpl; intros seen acc Hnd Hfresh.
  - by rewrite app_nil_r.
  - apply NoDup_cons in Hnd as [Hr Hnd].
    destruct (decide (rel_key r ∈ seen)) as [Hin|Hnin].
    { exfalso. apply (Hfresh r); [apply elem_of_cons; auto | done]. }
    rewrite IH; [by rewrite <- app_assoc | done |].
    intros r' Hr'. rewrite elem_of_union, elem_of_singleton. intros [Heq|Hin].
    + apply Hr. rewrite <- Heq. by apply list_elem_of_fmap_2.
    + apply (Hfresh r'); [apply elem_of_cons; auto | done].
Qed.

Lemma dedup_rel_NoDup l : NoDup (rel_key <$> _deduplicate_relationships l).
Proof. apply (rel_fold_inv l (∅, []) rel_inv_init). Qed.

Lemma dedup_relationships_idem X :
  _deduplicate_relationships (_deduplicate_relationships X)
  = _deduplicate_relationships X.
Proof.
  unfold _deduplicate_relationships at 1.
  rewrite rel_fold_distinct; [done | apply dedup_rel_NoDup |].
  intros r _. apply not_elem_of_empty.
Qed.

(** The accumulated list only grows, and by elements of the input. *)
Lemma rel_fold_acc l seen acc :
  ∃ added, (fold_left dedup_rel_step l (seen, acc)).2 = acc ++ added
           ∧ added `sublist_of` l.
Proof.
  revert seen acc. induction l as [|r l IH]; simpl; intros seen acc.
  - exists []. by rewrite app_nil_r.
  - destruct (decide (rel_key r ∈ seen)).
    + destruct (IH seen acc) as (added & -> & Hsub).
      exists added. split; [done|]. by apply sublist_cons.
    + destruct (IH ({[rel_key r]} ∪ seen) (acc ++ [r])) as (added & -> & Hsub).
      exists (r :: added). rewrite <- app_assoc. split; [done|]. by apply sublist_skip.
Qed.

Lemma dedup_rel_sublist l : _deduplicate_relationships l `sublist_of` l.
Proof.
  destruct (rel_fold_acc l ∅ []) as (added & Heq & Hsub).
  unfold _deduplicate_relationships. by rewrite Heq.
Qed.

(** Every key of the input survives. *)
Lemma rel_fold_covers l st k :
  rel_inv st → (k ∈ st.1 ∨ k ∈ rel_key <$> l) →
  k ∈ rel_key <$> (fold_left dedup_rel_step l st).2.
Proof.
  revert st. induction l as [|r l IH]; csimpl; intros st Hst Hk.
  - destruct Hk as [Hk|Hk]; [by apply Hst | by apply elem_of_nil in Hk].
  - apply IH; [by apply dedup_rel_step_inv|].
    destruct Hk as [Hk|Hk].
    + left. destruct st as [seen acc]. unfold dedup_rel_step.
      destruct (decide (rel_key r ∈ seen)); simpl in *; [done|].
      apply elem_of_union; auto.
    + apply elem_of_cons in Hk as [->|Hk]; [|by right].
      left. destruct st as [seen acc]. unfold dedup_rel_step.
      destruct (decide (rel_key r ∈ seen)); simpl; [done|].
      apply elem_of_union. left. by apply elem_of_singleton.
Qed.

Lemma dedup_rel_covers l r :
  r ∈ l → rel_key r ∈ rel_key <$> _deduplicate_relationships l.
Proof.
  intros Hr. apply (rel_fold_covers l (∅, [])); [apply rel_inv_init|].
  right. by apply list_elem_of_fmap_2.
Qed.

Lemma dedup_rel_pair r1 r2 :
  _deduplicate_relationships [r1; r2]
  = if decide (rel_key r2 = rel_key r1) then [r1] else [r1; r2].
Proof.
  unfold _deduplicate_relationships. simpl.
  destruct (decide (rel_key r1 ∈ (∅ : gset (string * string * string)))) as [Hin|_].
  { by apply not_elem_of_empty in Hin. }
  simpl. destruct (decide (rel_key r2 = rel_key r1)) as [Heq|Hne].
  - destruct (decide (rel_key r2 ∈ ({[rel_key r1]} ∪ ∅ : gset _))) as [|Hn]; [done|].
    exfalso. apply Hn. rewrite Heq. apply elem_of_union. left. by apply elem_of_singleton.
  - destruct (decide (rel_key r2 ∈ ({[rel_key r1]} ∪ ∅ : gset _))) as [Hin|]; [|done].
    exfalso. apply elem_of_union in Hin as [Hin|Hin].
    + by apply elem_of_singleton in Hin.
    + by apply not_elem_of_empty in Hin.
Qed.

(** ** Confidence and label merging *)

Lemma dedup_entity_step_get m e k :
  dict_get k (dedup_entity_step m e)
  = if decide (k = entity_key e)
    then Some (match dict_get (entity_key e) m with
               | Some existing => merge_entity existing e
               | None => e
               end)
    else dict_get k m.
Proof.
  unfold dedup_entity_step.
  destruct (dict_get (entity_key e) m); by rewrite dict_get_set.
Qed.

Lemma entity_map_of_snoc X e :
  entity_map_of (X ++ [e]) = dedup_entity_step (entity_map_of X) e.
Proof. unfold entity_map_of. by rewrite fold_left_app. Qed.

Lemma dedup_entities_pair e1 e2 :
  entity_key e1 = entity_key e2 →
  _deduplicate_entities [e1; e2] = [merge_entity e1 e2].
Proof.
  intros Hkey. unfold _deduplicate_entities, entity_map_of. simpl.
  unfold dedup_entity_step at 2. simpl.
  unfold dedup_entity_step. rewrite <- Hkey. simpl.
  destruct (decide (entity_key e1 = entity_key e1)); [|done]. simpl.
  destruct (decide (entity_key e1 = entity_key e1)); done.
Qed.

(** Every input entity is represented under its key. *)
Lemma entity_map_of_covers X e :
  e ∈ X → is_Some (dict_get (entity_key e) (entity_map_of X)).
Proof.
  induction X as [|x X IH] using rev_ind; intros Hin.
  - by apply elem_of_nil in Hin.
  - rewrite entity_map_of_snoc, dedup_entity_step_get.
    destruct (decide (entity_key e = entity_key x)); [eauto|].
    apply elem_of_app in Hin as [Hin|Hin]; [by apply IH|].
    apply list_elem_of_singleton in Hin. by subst.
Qed.

(** The confidence stored for a key is the greatest confidence among the
    input entities with that key, whatever their order. *)
Lemma dedup_confidence_is_maximum X k r :
  dict_get k (entity_map_of X) = Some r →
  (∀ e, e ∈ X → entity_key e = k → (Entity.confidence e <= Entity.confidence r)%Q)
  ∧ (∃ e, e ∈ X ∧ entity_key e = k ∧ Entity.confidence e = Entity.confidence r).
Proof.
  revert r. induction X as [|x X IH] using rev_ind; intros r Hget.
  - done.
  - rewrite entity_map_of_snoc, dedup_entity_step_get in Hget.
    destruct (decide (k = entity_key x)) as [->|Hne].
    + destruct (dict_get (entity_key x) (entity_map_of X)) as [existing|] eqn:Hex.
      * injection Hget as <-. destruct (IH _ eq_refl) as [Hub (w & Hw & Hwk & Hwc)].
        simpl. destruct (py_max_cases (Entity.confidence existing) (Entity.confidence x))
          as [[-> Hle]|[-> Hlt]]; split.
        -- intros e He Hk. apply elem_of_app in He as [He|He]; [by apply Hub|].
           apply list_elem_of_singleton in He. by subst.
        -- exists w. split_and!; [apply elem_of_app; auto|done|done].
        -- intros e He Hk. apply elem_of_app in He as [He|He].
           ++ apply Qle_trans with (Entity.confidence existing);
                [by apply Hub | by apply Qlt_le_weak].
           ++ apply list_elem_of_singleton in He. subst. apply Qle_refl.
        -- exists x. split_and!; [apply elem_of_app; right; by apply list_elem_of_singleton|done|done].
      * injection Hget as <-. split.
        -- intros e He Hk. apply elem_of_app in He as [He|He].
           ++ destruct (entity_map_of_covers X e He) as [v Hv]. congruence.
           ++ apply list_elem_of_singleton in He. subst. apply Qle_refl.
        -- exists x. split_and!; [apply elem_of_app; right; by apply list_elem_of_singleton|done|done].
    + destruct (IH _ Hget) as [Hub (w & Hw & Hwk & Hwc)]. split.
      * intros e He Hk. apply elem_of_app in He as [He|He]; [by apply Hub|].
        apply list_elem_of_singleton in He. by subst.
      * exists w. split_and!; [apply elem_of_app; auto|done|done].
Qed.

(** ** Claims on the deduplicators *)

(** C2, as stated, fails: a source that differs by a leading blank, or a
    relationship type that differs by case, gives the same specified key
    but two edges. *)
Lemma rel_key_not_trimmed_counterexample :
  let r1 := Rel.mk "Ada" "Graph" "discusses" (7 # 10) None in
  let r2 := Rel.mk " ada" "graph" "discusses" (7 # 10) None in
  let r3 := Rel.mk "Ada" "Graph" "Discusses" (7 # 10) None in
  ¬ (same_edge r1 r2 ↔ spec_rel_key r1 = spec_rel_key r2)
  ∧ ¬ (same_edge r1 r3 ↔ spec_rel_key r1 = spec_rel_key r3).
Proof.
  intros r1 r2 r3. split; intros [_ H].
  - specialize (H eq_refl). unfold same_edge in H. rewrite dedup_rel_pair in H.
    destruct (decide (rel_key r2 = rel_key r1)) as [Heq|_]; discriminate.
  - specialize (H eq_refl). unfold same_edge in H. rewrite dedup_rel_pair in H.
    destruct (decide (rel_key r3 = rel_key r1)) as [Heq|_]; discriminate.
Qed.

(** C2, amended: two relationships are the same edge exactly when their
    sources agree after lower-casing, their targets agree after
    lower-casing, and their relationship types are equal as written; on any
    list the result is a sub-list of the input with one relationship per
    such key and every key of the input. *)
Theorem rel_identity_key (r1 r2 : Rel.t) (X : list Rel.t) :
  (same_edge r1 r2 ↔
     PyStr.lower (Rel.source r1) = PyStr.lower (Rel.source r2)
     ∧ PyStr.lower (Rel.target r1) = PyStr.lower (Rel.target r2)
     ∧ Rel.relationship r1 = Rel.relationship r2)
  ∧ _deduplicate_relationships X `sublist_of` X
  ∧ NoDup (rel_key <$> _deduplicate_relationships X)
  ∧ (∀ r, r ∈ X → rel_key r ∈ rel_key <$> _deduplicate_relationships X).
Proof.
  split_and!.
  - unfold same_edge. rewrite dedup_rel_pair.
    destruct (decide (rel_key r2 = rel_key r1)) as [Heq|Hne].
    + unfold rel_key in Heq. split; [intros _|done].
      injection Heq as H1 H2 H3. done.
    + split; [discriminate|]. intros (H1 & H2 & H3).
      exfalso. apply Hne. unfold rel_key. by rewrite H1, H2, H3.
  - apply dedup_rel_sublist.
  - apply dedup_rel_NoDup.
  - apply dedup_rel_covers.
Qed.

(** C4: both deduplicators are idempotent. *)
Theorem dedup_idempotent (X : list Entity.t) (Y : list Rel.t) :
  _deduplicate_entities (_deduplicate_entities X) = _deduplicate_entities X
  ∧ _deduplicate_relationships (_deduplicate_relationships Y)
    = _deduplicate_relationships Y.
Proof. split; [apply dedup_entities_idem | apply dedup_relationships_idem]. Qed.

(** C5: two entities with one identity key merge into a single entity whose
    confidence is the greater of the two, in either arrival order. *)
Theorem confidence_merge_max (e1 e2 : Entity.t)
    (Hkey : entity_key e1 = entity_key e2) :
  ∃ r12 r21,
    _deduplicate_entities [e1; e2] = [r12]
    ∧ _deduplicate_entities [e2; e1] = [r21]
    ∧ Entity.confidence r12 == Qmax (Entity.confidence e1) (Entity.confidence e2)
    ∧ Entity.confidence r21 == Qmax (Entity.confidence e1) (Entity.confidence e2).
Proof.
  exists (merge_entity e1 e2), (merge_entity e2 e1). split_and!.
  - by apply dedup_entities_pair.
  - by apply dedup_entities_pair.
  - apply py_max_Qmax.
  - simpl. rewrite py_max_Qmax. apply Q.max_comm.
Qed.

Lemma confidence_merge_max_witness :
  let e1 := Entity.mk "Foo" "ORG" (Some (0, 3)%Z) (3 # 10) "spacy" in
  let e2 := Entity.mk " foo" "CONCEPT" None (9 # 10) "openai" in
  entity_key e1 = entity_key e2
  ∧ ∃ r12 r21,
      _deduplicate_entities [e1; e2] = [r12]
      ∧ _deduplicate_entities [e2; e1] = [r21]
      ∧ Entity.confidence r12 == Qmax (Entity.confidence e1) (Entity.confidence e2)
      ∧ Entity.confidence r21 == Qmax (Entity.confidence e1) (Entity.confidence e2).
Proof.
  intros e1 e2. split; [reflexivity | apply (confidence_merge_max e1 e2); reflexivity].
Defined.

(** C6: a remote ("openai") label wins over a local one in either arrival
    order, and a colliding local entity leaves the stored label as it is. *)
Theorem remote_label_authoritative (loc rem : Entity.t)
    (Hkey : entity_key loc = entity_key rem)
    (Hrem : Entity.source rem = "openai")
    (Hloc : Entity.source loc ≠ "openai") :
  (∃ r1 r2,
     _deduplicate_entities [loc; rem] = [r1]
     ∧ _deduplicate_entities [rem; loc] = [r2]
     ∧ Entity.label r1 = Entity.label rem
     ∧ Entity.label r2 = Entity.label rem)
  ∧ ∀ X k existing,
      dict_get k (entity_map_of X) = Some existing →
      Entity.label <$> dict_get k (entity_map_of (X ++ [loc]))
      = Some (Entity.label existing).
Proof.
  split.
  - exists (merge_entity loc rem), (merge_entity rem loc). split_and!.
    + by apply dedup_entities_pair.
    + by apply dedup_entities_pair.
    + simpl. by destruct (decide (Entity.source rem = "openai")).
    + simpl. by destruct (decide (Entity.source loc = "openai")).
  - intros X k existing Hget.
    rewrite entity_map_of_snoc, dedup_entity_step_get.
    destruct (decide (k = entity_key loc)) as [->|Hne].
    + rewrite Hget. simpl. by destruct (decide (Entity.source loc = "openai")).
    + by rewrite Hget.
Qed.

Lemma remote_label_authoritative_witness :
  let loc := Entity.mk "Foo" "ORG" (Some (0, 3)%Z) 1 "spacy" in
  let rem := Entity.mk "foo" "CONCEPT" None (1 # 2) "openai" in
  entity_key loc = entity_key rem
  ∧ Entity.source rem = "openai"
  ∧ Entity.source loc ≠ "openai"
  ∧ ((∃ r1 r2,
        _deduplicate_entities [loc; rem] = [r1]
        ∧ _deduplicate_entities [rem; loc] = [r2]
        ∧ Entity.label r1 = Entity.label rem
        ∧ Entity.label r2 = Entity.label rem)
     ∧ ∀ X k existing,
         dict_get k (entity_map_of X) = Some existing →
         Entity.label <$> dict_get k (entity_map_of (X ++ [loc]))
         = Some (Entity.label existing)).
Proof.
  intros loc rem.
  split; [reflexivity | split; [reflexivity | split; [discriminate |]]].
  apply (remote_label_authoritative loc rem); [reflexivity | reflexivity | discriminate].
Defined.

(** ** The store *)

Section DictSetFacts.
Context {K V : Type} `{EqDecision K}.
Implicit Types (m : list (K * V)) (k : K) (v : V).

Lemma elem_of_dict_set m k v x : x ∈ dict_set k v m → x ∈ m ∨ x = (k, v).
Proof.
  induction m as [|[k0 v0] m IH]; simpl.
  - intros Hx. apply list_elem_of_singleton in Hx. auto.
  - destruct (decide (k = k0)) as [->|Hne]; intros Hx.
    + apply elem_of_cons in Hx as [->|Hx]; [auto|]. left. apply elem_of_cons; auto.
    + apply elem_of_cons in Hx as [->|Hx]; [left; apply elem_of_cons; auto|].
      destruct (IH Hx) as [?|?]; [left; apply elem_of_cons|]; auto.
Qed.

Lemma dict_keys_set_mono m k v k' :
  k' ∈ dict_keys m → k' ∈ dict_keys (dict_set k v m).
Proof.
  intros Hin. rewrite dict_keys_set. case_decide; [done|].
  apply elem_of_app; auto.
Qed.

Lemma dict_keys_set_elem m k v k' :
  k' ∈ dict_keys (dict_set k v m) ↔ k' = k ∨ k' ∈ dict_keys m.
Proof.
  rewrite dict_keys_set. case_decide as Hk.
  - split; [auto|]. intros [->|?]; done.
  - rewrite elem_of_app, list_elem_of_singleton. tauto.
Qed.
End DictSetFacts.

Lemma edges_closed_alt G :
  edges_closed G ↔
  ∀ u v d, (u, v, d) ∈ nx._adj G →
    nx.has_node u G = true ∧ nx.has_node v G = true.
Proof.
  unfold edges_closed. rewrite Forall_forall. split.
  - intros H u v d Hin. apply (H (u, v, d) Hin).
  - intros H [[u v] d] Hin. apply (H u v d Hin).
Qed.

Lemma has_node_add_node n attrs G n' :
  nx.has_node n' (nx.add_node n attrs G) = true ↔ n' = n ∨ nx.has_node n' G = true.
Proof. unfold nx.has_node. rewrite !dict_has_true. apply dict_keys_set_elem. Qed.

Lemma add_fragment_node_adj rid G node :
  nx._adj (add_fragment_node rid G node) = nx._adj G.
Proof. reflexivity. Qed.

Lemma add_fragment_node_closed rid G node :
  edges_closed G → edges_closed (add_fragment_node rid G node).
Proof.
  rewrite !edges_closed_alt.
  intros Hc u v d Hin. destruct (Hc u v d Hin) as [Hu Hv].
  unfold add_fragment_node. rewrite !has_node_add_node. auto.
Qed.

Lemma add_fragment_edge_node rid G edge :
  nx._node (add_fragment_edge rid G edge) = nx._node G.
Proof. unfold add_fragment_edge. by case_match. Qed.

Lemma add_fragment_edge_closed rid G edge :
  edges_closed G → edges_closed (add_fragment_edge rid G edge).
Proof.
  intros Hc. unfold add_fragment_edge.
  destruct (nx.has_node (FragEdge.source edge) G && nx.has_node (FragEdge.target edge) G)
    eqn:Hguard; [|done].
  apply andb_true_iff in Hguard as [Hs Ht].
  rewrite edges_closed_alt in *.
  intros u v d Hin. simpl in Hin.
  apply elem_of_dict_set in Hin as [Hin|Heq].
  - apply (Hc u v d Hin).
  - injection Heq as -> -> _. done.
Qed.

Lemma fold_nodes_closed rid nodes G :
  edges_closed G → edges_closed (fold_left (add_fragment_node rid) nodes G).
Proof.
  revert G. induction nodes as [|n nodes IH]; simpl; intros G Hc; [done|].
  by apply IH, add_fragment_node_closed.
Qed.

Lemma fold_edges_closed rid edges G :
  edges_closed G → edges_closed (fold_left (add_fragment_edge rid) edges G).
Proof.
  revert G. induction edges as [|e edges IH]; simpl; intros G Hc; [done|].
  by apply IH, add_fragment_edge_closed.
Qed.

Lemma add_to_networkx_graph_closed rid graph_data G :
  edges_closed G → edges_closed (_add_to_networkx_graph rid graph_data G).
Proof.
  intros Hc. unfold _add_to_networkx_graph.
  by apply fold_edges_closed, fold_nodes_closed.
Qed.

Lemma reachable_closed G : reachable G → edges_closed G.
Proof.
  induction 1 as [|rid gd G _ IH].
  - constructor.
  - by apply add_to_networkx_graph_closed.
Qed.

Lemma fold_edges_node rid edges G :
  nx._node (fold_left (add_fragment_edge rid) edges G) = nx._node G.
Proof.
  revert G. induction edges as [|e edges IH]; simpl; intros G; [done|].
  by rewrite IH, add_fragment_edge_node.
Qed.

Lemma fold_nodes_adj rid nodes G :
  nx._adj (fold_left (add_fragment_node rid) nodes G) = nx._adj G.
Proof.
  revert G. induction nodes as [|n nodes IH]; simpl; intros G; [done|].
  by rewrite IH.
Qed.

(** The node ids after the node loop: the old ones and the fragment's. *)
Lemma fold_nodes_has_node rid nodes G n :
  nx.has_node n (fold_left (add_fragment_node rid) nodes G) = true
  ↔ nx.has_node n G = true ∨ n ∈ FragNode.id <$> nodes.
Proof.
  revert G. induction nodes as [|x nodes IH]; csimpl; intros G.
  - split; [auto|]. intros [?|Hin]; [done | by apply elem_of_nil in Hin].
  - rewrite IH. unfold add_fragment_node at 1. rewrite has_node_add_node.
    rewrite elem_of_cons. tauto.
Qed.

(** An edge with an endpoint that is no store node is dropped. *)
Lemma add_fragment_edge_dropped rid G edge :
  nx.has_node (FragEdge.source edge) G = false
  ∨ nx.has_node (FragEdge.target edge) G = false →
  add_fragment_edge rid G edge = G.
Proof.
  intros [H|H]; unfold add_fragment_edge; rewrite H; [done|].
  by rewrite andb_false_r.
Qed.

Lemma fold_edges_dropped rid edges G :
  Forall (λ e, nx.has_node (FragEdge.source e) G = false
               ∨ nx.has_node (FragEdge.target e) G = false) edges →
  fold_left (add_fragment_edge rid) edges G = G.
Proof.
  induction 1 as [|e edges He _ IH]; simpl; [done|].
  by rewrite add_fragment_edge_dropped.
Qed.

(** Edges of the merged store are old edges or guarded fragment edges. *)
Lemma fold_edges_origin rid edges G u v d :
  (u, v, d) ∈ nx._adj (fold_left (add_fragment_edge rid) edges G) →
  (u, v, d) ∈ nx._adj G
  ∨ ∃ e, e ∈ edges ∧ FragEdge.source e = u ∧ FragEdge.target e = v
         ∧ nx.has_node u G = true ∧ nx.has_node v G = true.
Proof.
  revert G. induction edges as [|e edges IH]; simpl; intros G Hin; [auto|].
  apply IH in Hin as [Hin|(e' & He' & Hs & Ht & Hu & Hv)].
  - unfold add_fragment_edge in Hin.
    destruct (nx.has_node (FragEdge.source e) G && nx.has_node (FragEdge.target e) G)
      eqn:Hguard; [|auto].
    apply andb_true_iff in Hguard as [Hsrc Htgt]. simpl in Hin.
    apply elem_of_dict_set in Hin as [Hin|Heq]; [auto|].
    injection Heq as -> -> _. right. exists e. split_and!; try done.
    apply elem_of_cons; auto.
  - right. exists e'. unfold nx.has_node in *.
    rewrite add_fragment_edge_node in Hu, Hv.
    split_and!; try done. apply elem_of_cons; auto.
Qed.

(** ** Claim on the merge of a fragment *)

(** C7: merging a fragment keeps every edge between store nodes; an edge of
    the merged store is an old edge or a fragment edge whose two endpoints
    were store nodes when it was inserted; and when every edge of the
    fragment has an endpoint that is neither an old node nor a node of the
    fragment, the edge count does not change. *)
Theorem edge_drop_invariant (recording_id : Z) (graph_data : GraphData.t)
    (G : nx.DiGraph) (Hclosed : edges_closed G) :
  let G' := _add_to_networkx_graph recording_id graph_data G in
  let known n :=
    nx.has_node n G = true ∨ n ∈ FragNode.id <$> GraphData.nodes graph_data in
  edges_closed G'
  ∧ (∀ u v d, (u, v, d) ∈ nx._adj G' →
       (u, v, d) ∈ nx._adj G
       ∨ (known u ∧ known v
          ∧ ∃ e, e ∈ GraphData.edges graph_data
                 ∧ FragEdge.source e = u ∧ FragEdge.target e = v))
  ∧ (Forall (λ e, ¬ known (FragEdge.source e) ∨ ¬ known (FragEdge.target e))
       (GraphData.edges graph_data) →
     nx.number_of_edges G' = nx.number_of_edges G).
Proof.
  intros G' known. split_and!.
  - by apply add_to_networkx_graph_closed.
  - intros u v d Hin. unfold G', _add_to_networkx_graph in Hin.
    apply fold_edges_origin in Hin as [Hin|(e & He & Hs & Ht & Hu & Hv)].
    + left. by rewrite fold_nodes_adj in Hin.
    + right. apply fold_nodes_has_node in Hu, Hv. eauto 10.
  - intros Hmiss. unfold G', _add_to_networkx_graph.
    rewrite fold_edges_dropped.
    + unfold nx.number_of_edges. by rewrite fold_nodes_adj.
    + eapply Forall_impl; [exact Hmiss|]. intros e He. simpl in He.
      destruct He as [He|He]; [left|right]; apply not_true_is_false;
        intros Hn; apply He; by apply fold_nodes_has_node in Hn.
Qed.

Lemma edge_drop_invariant_witness :
  let G :=
    _add_to_networkx_graph 1
      (_build_graph_structure 1
         [Entity.mk "Ada" "PERSON" None 1 "spacy";
          Entity.mk "Graph" "CONCEPT" None (4 # 5) "openai"]
         [Rel.mk "Ada" "Graph" "discusses" (7 # 10) None] [])
      nx.empty in
  let graph_data :=
    _build_graph_structure 2
      [Entity.mk "Budget" "CONCEPT" None 1 "spacy"]
      [Rel.mk "Budget" "Zed" "depends_on" (1 # 2) None] [] in
  edges_closed G
  ∧ nx.number_of_edges (_add_to_networkx_graph 2 graph_data G) = nx.number_of_edges G.
Proof.
  intros G graph_data.
  assert (HG : edges_closed G) by (repeat constructor).
  split; [exact HG|].
  apply (edge_drop_invariant 2 graph_data G HG).
  constructor; [|constructor].
  right. intros [H|H]; [discriminate H|].
  vm_compute in H. apply list_elem_of_singleton in H. discriminate H.
Defined.

(** ** Claim on shortest paths *)

Lemma bfs_unfold fuel G target u path queue seen :
  nx.bfs (S fuel) G target ((u :: path) :: queue) seen
  = if decide (u = target) then Some (reverse (u :: path))
    else
      let fresh := filter (λ v, v ∉ seen) (nx.successors G u) in
      nx.bfs fuel G target (queue ++ ((λ v, v :: u :: path) <$> fresh)) (seen ++ fresh).
Proof. reflexivity. Qed.

Lemma bfs_empty_queue fuel G target seen : nx.bfs fuel G target [] seen = None.
Proof. by destruct fuel. Qed.

(** Successors in the three-node chain. *)
Section Chain.
Context (A B C : string) (dA dB dC : Node.t) (dAB dBC : Edge.t).
Context (HAB : A ≠ B) (HBC : B ≠ C) (HAC : A ≠ C).

Local Abbreviation G := (chain_store A B C dA dB dC dAB dBC).

Lemma chain_successors_A : nx.successors G A = [B].
Proof.
  unfold nx.successors, nx.out_edges, chain_store. simpl.
  rewrite filter_cons_True by done.
  rewrite filter_cons_False by (simpl; congruence). done.
Qed.

Lemma chain_successors_B : nx.successors G B = [C].
Proof.
  unfold nx.successors, nx.out_edges, chain_store. simpl.
  rewrite filter_cons_False by (simpl; congruence).
  rewrite filter_cons_True by done. done.
Qed.

Lemma chain_successors_C : nx.successors G C = [].
Proof.
  unfold nx.successors, nx.out_edges, chain_store. simpl.
  rewrite filter_cons_False by (simpl; congruence).
  rewrite filter_cons_False by (simpl; congruence). done.
Qed.

Local Opaque nx.bfs.

Lemma chain_path_A_C : nx.shortest_path G A C = Some [A; B; C].
Proof.
  unfold nx.shortest_path.
  change (2 + nx.number_of_edges (chain_store A B C dA dB dC dAB dBC)) with 4.
  rewrite bfs_unfold, decide_False by done. simpl.
  rewrite chain_successors_A.
  rewrite filter_cons_True, filter_nil
    by (rewrite list_elem_of_singleton; congruence).
  simpl. rewrite bfs_unfold, decide_False by done. simpl.
  rewrite chain_successors_B.
  rewrite filter_cons_True, filter_nil
    by (rewrite elem_of_cons, list_elem_of_singleton; intros [?|?]; congruence).
  simpl. rewrite bfs_unfold, decide_True by done. done.
Qed.

Lemma chain_no_path_C_A : nx.shortest_path G C A = None.
Proof.
  unfold nx.shortest_path.
  change (2 + nx.number_of_edges (chain_store A B C dA dB dC dAB dBC)) with 4.
  rewrite bfs_unfold, decide_False by done. simpl.
  rewrite chain_successors_C, filter_nil. simpl.
  apply bfs_empty_queue.
Qed.
Local Transparent nx.bfs.
End Chain.

(** C8: in the store with nodes A, B, C and edges A→B, B→C only, the
    shortest path from A to C is [A; B; C], there is none from C to A, and
    the pair loop of the query engine emits nothing for the pair (C, A). *)
Theorem shortest_path_directed (A B C : string) (dA dB dC : Node.t)
    (dAB dBC : Edge.t) (rC rA : RelevantNode.t)
    (HAB : A ≠ B) (HBC : B ≠ C) (HAC : A ≠ C)
    (HrC : RelevantNode.id rC = C) (HrA : RelevantNode.id rA = A) :
  let G := chain_store A B C dA dB dC dAB dBC in
  nx.shortest_path G A C = Some [A; B; C]
  ∧ nx.shortest_path G C A = None
  ∧ find_paths G [rC; rA] = [].
Proof.
  intros G. split_and!.
  - by apply chain_path_A_C.
  - by apply chain_no_path_C_A.
  - unfold find_paths, path_between. simpl. rewrite HrC, HrA.
    unfold G. by rewrite chain_no_path_C_A.
Qed.

Lemma shortest_path_directed_witness :
  let G :=
    chain_store "A" "B" "C" (Node.mk "A" "CONCEPT" 1 1%Z) (Node.mk "B" "CONCEPT" 1 1%Z)
      (Node.mk "C" "CONCEPT" 1 1%Z) (Edge.mk "leads" 1 1%Z) (Edge.mk "leads" 1 1%Z) in
  ("A" ≠ "B" ∧ "B" ≠ "C" ∧ "A" ≠ "C")
  ∧ nx.shortest_path G "A" "C" = Some ["A"; "B"; "C"]
  ∧ nx.shortest_path G "C" "A" = None
  ∧ find_paths G [RelevantNode.mk "C" "C" "CONCEPT" 1; RelevantNode.mk "A" "A" "CONCEPT" 1]
    = [].
Proof.
  intros G. split; [split_and!; discriminate|].
  apply (shortest_path_directed "A" "B" "C"); (discriminate || reflexivity).
Defined.

Example chain_store_built :
  _add_to_networkx_graph 1
    (_build_graph_structure 1
       ((λ t, Entity.mk t "CONCEPT" None 1 "spacy") <$> ["A"; "B"; "C"])
       [Rel.mk "A" "B" "leads" 1 None; Rel.mk "B" "C" "leads" 1 None;
        Rel.mk "C" "D" "leads" 1 None] [])
    nx.empty
  = chain_store "A" "B" "C" (Node.mk "A" "CONCEPT" 1 1%Z) (Node.mk "B" "CONCEPT" 1 1%Z)
      (Node.mk "C" "CONCEPT" 1 1%Z) (Edge.mk "leads" 1 1%Z) (Edge.mk "leads" 1 1%Z).
Proof. reflexivity. Qed.

(** ** Soundness of the path search *)

Lemma walk_snoc G u v w p :
  walk G u v p → nx.has_edge v w G = true → walk G u w (p ++ [w]).
Proof.
  induction 1 as [u|u v' v p Hedge _ IH]; intros Hvw; simpl.
  - apply walk_cons with w; [done | constructor].
  - apply walk_cons with v'; auto.
Qed.

Lemma successors_has_edge G u v : v ∈ nx.successors G u → nx.has_edge u v G = true.
Proof.
  unfold nx.successors, nx.out_edges, nx.has_edge. intros Hin.
  apply list_elem_of_fmap in Hin as ([[u' v'] d] & -> & Hin).
  apply list_elem_of_filter in Hin as [Hu Hin]. simpl in *. subst u'.
  apply dict_has_true. unfold dict_keys.
  apply list_elem_of_fmap. by exists (u, v', d).
Qed.

Lemma bfs_sound fuel G source target queue seen p :
  queue_ok G source queue →
  nx.bfs fuel G target queue seen = Some p → walk G source target p.
Proof.
  revert queue seen. induction fuel as [|fuel IH]; intros queue seen Hq Hbfs; [done|].
  destruct queue as [|[|u path] queue]; [done| |].
  - simpl in Hbfs. apply (IH queue seen); [|done]. by inversion Hq.
  - rewrite bfs_unfold in Hbfs. inversion_clear Hq as [|? ? Hhd Htl].
    destruct (decide (u = target)) as [->|Hne]; [by injection Hbfs as <-|].
    apply IH in Hbfs; [done|].
    apply Forall_app. split; [done|].
    apply Forall_fmap, Forall_forall. intros v Hv. simpl.
    apply list_elem_of_filter in Hv as [_ Hv].
    rewrite reverse_cons. apply walk_snoc with u; [done|].
    by apply successors_has_edge.
Qed.

(** A path the store reports is a directed walk between the two nodes. *)
Lemma shortest_path_sound G source target p :
  nx.shortest_path G source target = Some p → walk G source target p.
Proof.
  apply bfs_sound. constructor; [|constructor]. constructor.
Qed.

(** ** Completeness of the path search *)

Lemma has_edge_successors G u v : nx.has_edge u v G = true → v ∈ nx.successors G u.
Proof.
  unfold nx.successors, nx.out_edges, nx.has_edge. intros Hin.
  apply dict_has_true in Hin. unfold dict_keys in Hin.
  apply list_elem_of_fmap in Hin as ([[u' v'] d] & Heq & Hin).
  simpl in Heq. injection Heq as <- <-.
  apply list_elem_of_fmap. exists (u, v, d). split; [done|].
  by apply list_elem_of_filter.
Qed.

Lemma length_filter_impl {A : Type} (P Q : A → Prop)
    `{∀ x, Decision (P x)} `{∀ x, Decision (Q x)} (l : list A) :
  (∀ x, P x → Q x) → (length (filter P l) ≤ length (filter Q l))%nat.
Proof.
  intros HPQ. induction l as [|x l IH]; [done|].
  rewrite !filter_cons. destruct (decide (P x)) as [HP|HP].
  - rewrite decide_True by auto. simpl. lia.
  - destruct (decide (Q x)); simpl; lia.
Qed.

Lemma length_filter_sublist (l1 l2 : list string) :
  l1 `sublist_of` l2 →
  (length (filter (λ v, v ∉ l1) l2) + length l1 ≤ length l2)%nat.
Proof.
  induction 1 as [|x l1 l2 _ IH|x l1 l2 _ IH].
  - done.
  - rewrite filter_cons_False by (intros Hn; apply Hn, elem_of_cons; auto).
    pose proof (length_filter_impl (λ v, v ∉ x :: l1) (λ v, v ∉ l1) l2) as Hle.
    simpl. etrans; [apply Nat.add_le_mono_r, Hle|lia].
    intros v Hv Hin. apply Hv, elem_of_cons; auto.
  - rewrite filter_cons. destruct (decide (x ∉ l1)); simpl; lia.
Qed.

Lemma filter_sublist_mono {A : Type} (P : A → Prop) `{∀ x, Decision (P x)}
    (l1 l2 : list A) :
  l1 `sublist_of` l2 → filter P l1 `sublist_of` filter P l2.
Proof.
  induction 1 as [|x l1 l2 _ IH|x l1 l2 _ IH]; [done| |].
  - rewrite !filter_cons. destruct (decide (P x)); [by apply sublist_skip | done].
  - rewrite filter_cons. destruct (decide (P x)); [by apply sublist_cons | done].
Qed.

Lemma fresh_sublist_unseen G seen u :
  filter (λ v, v ∉ seen) (nx.successors G u) `sublist_of` unseen G seen.
Proof.
  unfold unseen, nx.successors, nx.out_edges.
  apply filter_sublist_mono, fmap_sublist, sublist_filter.
Qed.

Lemma unseen_step G seen fresh :
  fresh `sublist_of` unseen G seen →
  (length (unseen G (seen ++ fresh)) + length fresh ≤ length (unseen G seen))%nat.
Proof.
  intros Hsub. etrans; [|apply (length_filter_sublist _ _ Hsub)].
  apply Nat.add_le_mono_r. unfold unseen. rewrite list_filter_filter.
  apply Nat.eq_le_incl. f_equal. apply list_filter_iff. intros v.
  rewrite elem_of_app. tauto.
Qed.

Lemma pending_app q1 q2 : pending (q1 ++ q2) = pending q1 ++ pending q2.
Proof. apply flat_map_app. Qed.

Lemma pending_push (u : string) (path fresh : list string) :
  pending ((λ v, v :: u :: path) <$> fresh) = fresh.
Proof. induction fresh as [|v fresh IH]; csimpl; [done|]. by rewrite IH. Qed.

Lemma walk_stays G x target p (S : list string) :
  walk G x target p → x ∈ S →
  (∀ a, a ∈ S → ∀ y, y ∈ nx.successors G a → y ∈ S) → target ∈ S.
Proof.
  induction 1 as [u|u v w p Hedge _ IH]; intros Hx Hclosed; [done|].
  apply IH; [|done]. apply (Hclosed u Hx). by apply has_edge_successors.
Qed.

(** One expansion keeps the search invariant. *)
Lemma search_inv_step G target u path queue seen :
  u ≠ target →
  search_inv G target ((u :: path) :: queue) seen →
  let fresh := filter (λ v, v ∉ seen) (nx.successors G u) in
  search_inv G target (queue ++ ((λ v, v :: u :: path) <$> fresh)) (seen ++ fresh).
Proof.
  intros Hne Hinv fresh a Ha. rewrite pending_app, pending_push.
  apply elem_of_app in Ha as [Ha|Ha]; [|left; apply elem_of_app; auto].
  destruct (Hinv a Ha) as [Hp|[Hnt Hs]].
  - simpl in Hp. apply elem_of_cons in Hp as [->|Hp];
      [|left; apply elem_of_app; auto].
    right. split; [done|]. intros y Hy.
    destruct (decide (y ∈ seen)) as [Hin|Hnin]; apply elem_of_app; [auto|].
    right. by apply list_elem_of_filter.
  - right. split; [done|]. intros y Hy. apply elem_of_app; auto.
Qed.

Lemma bfs_complete fuel G target queue seen x p :
  (length queue + length (unseen G seen) < fuel)%nat →
  search_inv G target queue seen →
  x ∈ seen → walk G x target p →
  is_Some (nx.bfs fuel G target queue seen).
Proof.
  revert queue seen. induction fuel as [|fuel IH]; intros queue seen Hfuel Hinv Hx Hwalk;
    [lia|].
  destruct queue as [|[|u path] queue].
  - exfalso.
    assert (Hclosed : ∀ a, a ∈ seen → ∀ y, y ∈ nx.successors G a → y ∈ seen).
    { intros a Ha. destruct (Hinv a Ha) as [Hp|[_ Hs]]; [|done].
      by apply elem_of_nil in Hp. }
    pose proof (walk_stays G x target p seen Hwalk Hx Hclosed) as Ht.
    destruct (Hinv target Ht) as [Hp|[Hne _]]; [by apply elem_of_nil in Hp | done].
  - simpl. apply IH; [simpl in Hfuel; lia | exact Hinv | done | done].
  - rewrite bfs_unfold. destruct (decide (u = target)) as [->|Hne]; [eauto|].
    cbv zeta. set (fresh := filter (λ v, v ∉ seen) (nx.successors G u)).
    apply IH.
    + pose proof (unseen_step G seen fresh (fresh_sublist_unseen G seen u)) as Hstep.
      rewrite length_app, length_fmap. simpl in Hfuel. lia.
    + by apply search_inv_step.
    + apply elem_of_app; auto.
    + done.
Qed.

(** The search answers with a walk exactly when the target can be reached:
    the fuel covers every store. *)
Lemma shortest_path_complete G source target p :
  walk G source target p → is_Some (nx.shortest_path G source target).
Proof.
  intros Hwalk. unfold nx.shortest_path.
  apply (bfs_complete _ G target [[source]] [source] source p); [| |apply elem_of_cons; auto|done].
  - unfold unseen, nx.number_of_edges. simpl.
    pose proof (length_filter (λ v, v ∉ [source]) ((λ e, e.1.2) <$> nx._adj G)) as Hle.
    rewrite length_fmap in Hle. lia.
  - intros a Ha. left. apply list_elem_of_singleton in Ha as ->.
    simpl. apply elem_of_cons; auto.
Qed.

Lemma shortest_path_None G source target :
  nx.shortest_path G source target = None ↔ ¬ ∃ p, walk G source target p.
Proof.
  split.
  - intros Hnone [p Hp]. apply shortest_path_complete in Hp as [q Hq]. congruence.
  - intros Hno. destruct (nx.shortest_path G source target) as [p|] eqn:Hsp; [|done].
    exfalso. apply Hno. exists p. by apply shortest_path_sound.
Qed.

(** ** Minimality of the path search *)

Lemma walk_nonempty G u v w : walk G u v w → (1 ≤ length w)%nat.
Proof. destruct 1; simpl; lia. Qed.

Lemma walk_last_inv G s y w :
  walk G s y w →
  (w = [s] ∧ y = s)
  ∨ ∃ y' w', w = w' ++ [y] ∧ walk G s y' w' ∧ nx.has_edge y' y G = true.
Proof.
  induction 1 as [u|u v t p Hedge Hwalk IH]; [by left|]. right.
  destruct IH as [[-> ->]|(y' & w' & -> & Hw' & He)].
  - exists u, [u]. split_and!; [done | constructor | done].
  - exists y', (u :: w'). split_and!; [done | by apply walk_cons with v | done].
Qed.

Lemma seen_up_to_level G source target q1 rest seen y w :
  source ∈ seen → level_done G source target (q1 :: rest) seen →
  walk G source y w → (length w ≤ length q1)%nat → y ∈ seen.
Proof.
  intros Hsrc Hdone Hwalk Hlen.
  destruct (walk_last_inv _ _ _ _ Hwalk) as [[_ ->]|(y' & w' & -> & Hw' & He)]; [done|].
  rewrite length_app in Hlen. simpl in Hlen.
  destruct (Hdone y' w' Hw') as [_ Hsucc]; [lia|].
  by apply Hsucc, has_edge_successors.
Qed.

Lemma levels_ok_head_le q1 rest q :
  levels_ok (q1 :: rest) → q ∈ q1 :: rest → (length q1 ≤ length q)%nat.
Proof.
  intros [Hall _] Hin. apply elem_of_cons in Hin as [->|Hin]; [done|].
  rewrite Forall_forall in Hall. by apply Hall.
Qed.

Lemma levels_ok_push (n : nat) (rest new : list (list string)) :
  levels_ok rest →
  Forall (λ q, (n ≤ length q ≤ S n)%nat) rest →
  Forall (λ q, length q = S n) new →
  levels_ok (rest ++ new).
Proof.
  intros Hok Hrest Hnew. induction rest as [|r rest IH]; simpl.
  - induction Hnew as [|q new Hq Hnew IHn]; simpl; [done|]. split; [|done].
    eapply Forall_impl; [exact Hnew|]. simpl. intros q' Hq'. lia.
  - destruct Hok as [Hall Hok]. inversion_clear Hrest as [|? ? Hr Hrest'].
    split; [|by apply IH]. apply Forall_app. split; [done|].
    eapply Forall_impl; [exact Hnew|]. simpl. intros q' Hq'. lia.
Qed.

Lemma pending_elem queue x :
  x ∈ pending queue → ∃ path, (x :: path) ∈ queue.
Proof.
  unfold pending. induction queue as [|q queue IH]; simpl; intros Hin.
  - by apply elem_of_nil in Hin.
  - apply elem_of_app in Hin as [Hin|Hin].
    + destruct q as [|u path]; simpl in Hin; [by apply elem_of_nil in Hin|].
      apply list_elem_of_singleton in Hin as ->. exists path. apply elem_of_cons; auto.
    + destruct (IH Hin) as [path Hp]. exists path. apply elem_of_cons; auto.
Qed.

Lemma bfs_minimal fuel G source target queue seen p :
  source ∈ seen →
  Forall (entry_min G source) queue →
  levels_ok queue →
  search_inv G target queue seen →
  level_done G source target queue seen →
  nx.bfs fuel G target queue seen = Some p →
  ∀ w, walk G source target w → (length p ≤ length w)%nat.
Proof.
  revert queue seen. induction fuel as [|fuel IH];
    intros queue seen Hsrc Hmin Hlev Hinv Hdone Hbfs; [done|].
  destruct queue as [|[|u path] queue]; [done | by inversion Hmin |].
  rewrite bfs_unfold in Hbfs.
  apply Forall_cons in Hmin as [[Hwalk Hshort] Hmin'].
  destruct (decide (u = target)) as [->|Hne].
  { injection Hbfs as <-. intros w Hw. rewrite length_reverse. by apply Hshort. }
  cbv zeta in Hbfs. set (fresh := filter (λ v, v ∉ seen) (nx.successors G u)) in *.
  assert (Hupto : ∀ y w, walk G source y w →
            (length w ≤ length (u :: path))%nat → y ∈ seen).
  { intros y w. by apply (seen_up_to_level G source target (u :: path) queue seen). }
  assert (Hmin_new : Forall (entry_min G source)
            (queue ++ ((λ v, v :: u :: path) <$> fresh))).
  { apply Forall_app. split; [done|]. apply Forall_fmap, Forall_forall.
    intros v Hv. apply list_elem_of_filter in Hv as [Hunseen Hv]. split.
    - rewrite reverse_cons. apply walk_snoc with u; [done|].
      by apply successors_has_edge.
    - intros w Hw. destruct (decide (length w ≤ length (u :: path))%nat) as [Hle|Hgt].
      + exfalso. apply Hunseen. by apply (Hupto v w).
      + simpl in *. lia. }
  assert (Hlev_new : levels_ok (queue ++ ((λ v, v :: u :: path) <$> fresh))).
  { destruct Hlev as [Hall Hok].
    apply (levels_ok_push (length (u :: path))); [done | done |].
    apply Forall_fmap, Forall_forall. by intros v _. }
  assert (Hinv_new : search_inv G target
            (queue ++ ((λ v, v :: u :: path) <$> fresh)) (seen ++ fresh)).
  { by apply search_inv_step. }
  apply (IH _ _ (proj2 (elem_of_app _ _ _) (or_introl Hsrc))
            Hmin_new Hlev_new Hinv_new); [|done].
  destruct (queue ++ ((λ v, v :: u :: path) <$> fresh)) as [|q1 rest] eqn:Hq; [done|].
  intros y w Hw Hlen.
  assert (Hq1 : (length q1 ≤ S (length (u :: path)))%nat).
  { assert (Hin : q1 ∈ queue ++ ((λ v, v :: u :: path) <$> fresh))
      by (rewrite Hq; apply elem_of_cons; auto).
    apply elem_of_app in Hin as [Hin|Hin].
    - destruct Hlev as [Hall _]. rewrite Forall_forall in Hall.
      by apply Hall.
    - apply list_elem_of_fmap in Hin as (v & -> & _). simpl. lia. }
  assert (Hy : y ∈ seen) by (apply (Hupto y w Hw); lia).
  destruct (Hinv_new y (proj2 (elem_of_app _ _ _) (or_introl Hy))) as [Hpend|Hexp];
    [|done].
  exfalso. apply pending_elem in Hpend as [ypath Hyq].
  pose proof (levels_ok_head_le _ _ _ Hlev_new Hyq) as Hle.
  rewrite Forall_forall in Hmin_new. destruct (Hmin_new _ Hyq) as [_ Hys].
  specialize (Hys w Hw). lia.
Qed.

(** The reported path is a shortest one: no walk between the two nodes has
    fewer nodes. *)
Lemma shortest_path_minimal G source target p w :
  nx.shortest_path G source target = Some p →
  walk G source target w → (length p ≤ length w)%nat.
Proof.
  intros Hsp. revert w. unfold nx.shortest_path in Hsp.
  apply (bfs_minimal (2 + nx.number_of_edges G) G source target [[source]] [source] p);
    [| | | | |done].
  - apply elem_of_cons; auto.
  - constructor; [|constructor]. split; [constructor|].
    intros w Hw. by apply walk_nonempty in Hw.
  - by split.
  - intros a Ha. left. apply list_elem_of_singleton in Ha as ->.
    simpl. apply elem_of_cons; auto.
  - intros y w Hw Hlen. apply walk_nonempty in Hw. simpl in Hlen. lia.
Qed.

(** ** The query engine *)

Lemma flat_map_fmap {A B C : Type} (f : B → list C) (g : A → B) (l : list A) :
  flat_map f (g <$> l) = flat_map (λ x, f (g x)) l.
Proof. induction l as [|x l IH]; csimpl; [done|]. by rewrite IH. Qed.

Lemma flat_map_lookup_seq {A B : Type} (f : A → list B) (l : list A) :
  flat_map (λ j, match l !! j with Some b => f b | None => [] end)
           (seq 0 (length l))
  = flat_map f l.
Proof.
  induction l as [|x l IH]; [done|].
  simpl length. simpl seq. simpl flat_map at 1.
  rewrite <- fmap_S_seq, flat_map_fmap. simpl. by rewrite IH.
Qed.

Lemma path_between_head G a l j :
  path_between G (a :: l) 0 (S j)
  = match l !! j with
    | Some b => path_of_pair G (a, b)
    | None => []
    end.
Proof.
  unfold path_between, path_of_pair. simpl.
  destruct (l !! j) as [b|]; [|done]. by destruct (nx.shortest_path _ _ _).
Qed.

Lemma path_between_tail G a l i j :
  path_between G (a :: l) (S i) (S j) = path_between G l i j.
Proof. reflexivity. Qed.

Lemma pair_loops_pairs G l :
  pair_loops G l = flat_map (path_of_pair G) (pairs_in_order l).
Proof.
  induction l as [|a l IH]; [done|].
  unfold pair_loops. simpl length. simpl seq. simpl flat_map at 1.
  simpl pairs_in_order. rewrite flat_map_app. f_equal.
  - rewrite Nat.sub_0_r.
    rewrite <- fmap_S_seq, flat_map_fmap.
    etrans; [apply flat_map_ext; intros j; apply path_between_head|].
    etrans; [apply (flat_map_lookup_seq (λ b, path_of_pair G (a, b)) l)|].
    symmetry. apply flat_map_fmap.
  - rewrite <- IH. unfold pair_loops.
    rewrite <- fmap_S_seq, flat_map_fmap.
    apply flat_map_ext. intros i.
    replace (S (length l) - S (S i)) with (length l - S i) by lia.
    rewrite <- fmap_S_seq, flat_map_fmap.
    apply flat_map_ext. intros j. apply path_between_tail.
Qed.

Lemma find_paths_pairs G l :
  find_paths G l = flat_map (path_of_pair G) (pairs_in_order l).
Proof.
  rewrite <- pair_loops_pairs. unfold find_paths, pair_loops.
  destruct (1 <? length l)%nat eqn:Hlen; [done|].
  apply Nat.ltb_ge in Hlen.
  destruct l as [|a [|b l]]; [done | done | simpl in Hlen; lia].
Qed.

Lemma pairs_in_order_lookup {A : Type} (l : list A) (a b : A) :
  (a, b) ∈ pairs_in_order l →
  ∃ i j, (i < j)%nat ∧ l !! i = Some a ∧ l !! j = Some b.
Proof.
  induction l as [|x l IH]; simpl; intros Hin.
  - by apply elem_of_nil in Hin.
  - apply elem_of_app in Hin as [Hin|Hin].
    + apply list_elem_of_fmap in Hin as (y & [= -> ->] & Hy).
      apply list_elem_of_lookup in Hy as [j Hj].
      exists 0%nat, (S j). split_and!; [lia | done | done].
    + destruct (IH Hin) as (i & j & Hij & Hi & Hj).
      exists (S i), (S j). split_and!; [lia | done | done].
Qed.

(** ** Claims on the query engine *)


(** C1, as stated, fails: when the spaCy call raises, the result has no
    graph_stats. *)
Lemma graph_stats_absent_counterexample :
  QueryResult.graph_stats
    (query_knowledge_graph failing_pipeline one_node_store "budget" (Some 1%Z))
  ≠ Some (nx.number_of_nodes one_node_store, nx.number_of_edges one_node_store).
Proof. discriminate. Qed.

(** C1, amended: a query always returns a result; when the [try] block
    runs to its end the result carries graph_stats with the node count and
    the edge count of the whole store, whatever the recording scope; when
    the block raises, the result is the three empty lists and no
    graph_stats. *)
Theorem query_graph_stats (C : Collaborators) (G : nx.DiGraph) (query : string)
    (recording_id : option Z) :
  if extraction_raises C query
  then query_knowledge_graph C G query recording_id = QueryResult.mk [] [] [] None
  else QueryResult.graph_stats (query_knowledge_graph C G query recording_id)
       = Some (nx.number_of_nodes G, nx.number_of_edges G).
Proof.
  unfold extraction_raises, query_knowledge_graph, query_body, _extract_entities.
  destruct (nlp C) as [pipeline|]; [|done]. by destruct (pipeline query).
Qed.

(** C3, as stated, fails: the path to the eleventh matched node is emitted. *)
Lemma paths_not_capped_counterexample :
  QueryResult.paths (query_knowledge_graph term_n eleven_nodes "n" None)
  = [["n0"; "n10"]]
  ∧ spec_paths eleven_nodes (find_relevant_nodes eleven_nodes ["n"] None) = []
  ∧ QueryResult.paths (query_knowledge_graph term_n eleven_nodes "n" None)
    ≠ spec_paths eleven_nodes (find_relevant_nodes eleven_nodes ["n"] None).
Proof. split_and!; [by vm_compute | by vm_compute | by vm_compute]. Qed.

(** C3, amended: the returned relevant nodes are the first ten matched
    nodes in scan order; the shortest-path lookups run over the pairs
    (i < j) of all matched nodes, a missing path adds nothing, and the first
    five paths in pair order are returned. *)
Theorem query_caps (C : Collaborators) (G : nx.DiGraph) (query : string)
    (recording_id : option Z) (query_entities : list Entity.t)
    (Hextract : _extract_entities C query = Returned query_entities) :
  let query_terms := (λ e, PyStr.lower (Entity.text e)) <$> query_entities in
  let matched := find_relevant_nodes G query_terms recording_id in
  let result := query_knowledge_graph C G query recording_id in
  QueryResult.relevant_nodes result = take 10 matched
  ∧ QueryResult.paths result
    = take 5 (flat_map (path_of_pair G) (pairs_in_order matched))
  ∧ (length (QueryResult.relevant_nodes result) ≤ 10)%nat
  ∧ (length (QueryResult.paths result) ≤ 5)%nat
  ∧ ∀ p, p ∈ QueryResult.paths result →
      ∃ i j a b, (i < j)%nat ∧ matched !! i = Some a ∧ matched !! j = Some b
                 ∧ nx.shortest_path G (RelevantNode.id a) (RelevantNode.id b) = Some p.
Proof.
  intros query_terms matched result.
  assert (Hres : result
    = {| QueryResult.relevant_nodes := take 10 matched;
         QueryResult.paths := take 5 (find_paths G matched);
         QueryResult.related_concepts := take 10 (_get_related_concepts G query_terms);
         QueryResult.graph_stats := Some (nx.number_of_nodes G, nx.number_of_edges G) |}).
  { unfold result, query_knowledge_graph, query_body. by rewrite Hextract. }
  rewrite Hres. simpl. rewrite find_paths_pairs. split_and!; [done | done | | |].
  - rewrite length_take. lia.
  - rewrite length_take. lia.
  - intros p Hp. apply subseteq_take in Hp.
    apply list_elem_of_In, in_flat_map in Hp as ([a b] & Hab & Hp).
    apply list_elem_of_In, pairs_in_order_lookup in Hab as (i & j & Hij & Hi & Hj).
    exists i, j, a, b. split_and!; try done.
    unfold path_of_pair in Hp. simpl in Hp.
    destruct (nx.shortest_path G (RelevantNode.id a) (RelevantNode.id b)) as [p'|];
      simpl in Hp; [|done].
    destruct Hp as [->|[]]. done.
Qed.

Lemma query_caps_witness :
  _extract_entities term_n "n" = Returned [Entity.mk "n" "CONCEPT" None (1 # 2) "openai"]
  ∧ QueryResult.relevant_nodes (query_knowledge_graph term_n eleven_nodes "n" None)
    = take 10 (find_relevant_nodes eleven_nodes ["n"] None)
  ∧ QueryResult.paths (query_knowledge_graph term_n eleven_nodes "n" None)
    = take 5 (flat_map (path_of_pair eleven_nodes)
                (pairs_in_order (find_relevant_nodes eleven_nodes ["n"] None)))
  ∧ (length (QueryResult.relevant_nodes
               (query_knowledge_graph term_n eleven_nodes "n" None)) ≤ 10)%nat
  ∧ (length (QueryResult.paths
               (query_knowledge_graph term_n eleven_nodes "n" None)) ≤ 5)%nat.
Proof.
  split; [reflexivity|].
  destruct (query_caps term_n eleven_nodes "n" None
              [Entity.mk "n" "CONCEPT" None (1 # 2) "openai"] eq_refl)
    as (H1 & H2 & H3 & H4 & _).
  exact (conj H1 (conj H2 (conj H3 H4))).
Defined.

(** ** Claims on the summary reporter *)

(** C9, as stated, fails: nodes tagged with recording id 0 are not counted. *)
Lemma recordings_covered_counterexample :
  Summary.recordings_covered (get_graph_summary placeholder_store None) = 0%nat
  ∧ size (recording_ids (summary_nodes placeholder_store None)) = 1%nat
  ∧ Summary.recordings_covered (get_graph_summary placeholder_store None)
    ≠ size (recording_ids (summary_nodes placeholder_store None)).
Proof. split_and!; [reflexivity | reflexivity | discriminate]. Qed.

Lemma summary_nodes_spec G recording_id :
  (if truthy recording_id
   then filter (λ nd, Some (Node.recording_id nd.2) = recording_id) (nx.nodes G)
   else nx.nodes G)
  = summary_nodes G recording_id.
Proof.
  unfold summary_nodes, truthy. destruct recording_id as [z|]; [|done].
  destruct (decide (z = 0%Z)) as [->|Hz]; [done|].
  rewrite (proj2 (Z.eqb_neq z 0) Hz). simpl.
  apply list_filter_iff. intros nd. split; [by intros [= ->] | by intros ->].
Qed.

Lemma nonzero_ids_difference (l : list Z) :
  (list_to_set (filter (λ r, r ≠ 0%Z) l) : gset Z) = list_to_set l ∖ {[0%Z]}.
Proof.
  apply set_eq. intros x.
  rewrite elem_of_difference, !elem_of_list_to_set, list_elem_of_filter,
    elem_of_singleton.
  tauto.
Qed.

(** C9, amended: recordings_covered is the number of distinct recording ids
    other than 0 among the node set (the nodes of the given recording when
    a non-zero id is supplied, otherwise all store nodes). *)
Theorem recordings_covered_nonzero (G : nx.DiGraph) (recording_id : option Z) :
  Summary.recordings_covered (get_graph_summary G recording_id)
  = size (recording_ids (summary_nodes G recording_id) ∖ {[0%Z]}).
Proof.
  unfold get_graph_summary. simpl. rewrite summary_nodes_spec.
  by rewrite nonzero_ids_difference.
Qed.

(** C10: recording id 0 scopes nothing; the query and the summary are those
    of the call without a recording id, over the whole store. *)
Theorem falsy_recording_id_unscoped (C : Collaborators) (G : nx.DiGraph)
    (query : string) :
  query_knowledge_graph C G query (Some 0%Z) = query_knowledge_graph C G query None
  ∧ get_graph_summary G (Some 0%Z) = get_graph_summary G None
  ∧ Summary.total_entities (get_graph_summary G (Some 0%Z)) = nx.number_of_nodes G.
Proof. split_and!; reflexivity. Qed.

(** ** Coherence of the edge enumeration *)

Lemma flat_map_ext_elem {A B : Type} (f g : A → list B) (l : list A) :
  (∀ x, x ∈ l → f x = g x) → flat_map f l = flat_map g l.
Proof.
  induction l as [|x l IH]; intros Hfg; [done|]. simpl.
  rewrite (Hfg x) by (apply elem_of_cons; auto).
  rewrite IH; [done|]. intros y Hy. apply Hfg, elem_of_cons; auto.
Qed.

Lemma length_by_source (E : list (string * string * Edge.t)) (ids : list string) :
  NoDup ids → (∀ e, e ∈ E → e.1.1 ∈ ids) →
  length (flat_map (λ u, filter (λ e, e.1.1 = u) E) ids) = length E.
Proof.
  revert E. induction ids as [|u ids IH]; intros E Hnd Hsrc.
  - destruct E as [|e E]; [done|].
    exfalso. eapply not_elem_of_nil, (Hsrc e). apply elem_of_cons; auto.
  - apply NoDup_cons in Hnd as [Hu Hnd]. simpl. rewrite length_app.
    rewrite <- (Permutation_length (filter_app_complement (λ e, e.1.1 = u) E)).
    rewrite length_app. f_equal.
    rewrite <- (IH (filter (λ e, ¬ e.1.1 = u) E) Hnd).
    + f_equal. apply flat_map_ext_elem. intros u' Hu'.
      rewrite list_filter_filter. apply list_filter_iff. intros e. split; [|tauto].
      intros ->. split; [done|]. by intros ->.
    + intros e He. apply list_elem_of_filter in He as [Hne He].
      specialize (Hsrc e He). apply elem_of_cons in Hsrc as [?|?]; done.
Qed.

Lemma add_to_networkx_graph_NoDup rid graph_data G :
  NoDup (dict_keys (nx._node G)) →
  NoDup (dict_keys (nx._node (_add_to_networkx_graph rid graph_data G))).
Proof.
  intros Hnd. unfold _add_to_networkx_graph. rewrite fold_edges_node.
  revert G Hnd. induction (GraphData.nodes graph_data) as [|n nodes IH];
    simpl; intros G Hnd; [done|].
  apply IH. simpl. by apply dict_keys_set_NoDup.
Qed.

Lemma reachable_NoDup G : reachable G → NoDup (dict_keys (nx._node G)).
Proof.
  induction 1 as [|rid gd G _ IH]; [apply NoDup_nil_2|].
  by apply add_to_networkx_graph_NoDup.
Qed.

(** On a store of the service, enumerating the edges node by node yields
    each edge once: the summary's unfiltered relationship total is the
    edge count of graph_stats. *)
Lemma reachable_edges_length G :
  reachable G → length (nx.edges G) = nx.number_of_edges G.
Proof.
  intros HG. unfold nx.edges, nx.out_edges, nx.number_of_edges.
  rewrite <- (length_by_source (nx._adj G) (dict_keys (nx._node G))).
  - unfold dict_keys. by rewrite flat_map_fmap.
  - by apply reachable_NoDup.
  - intros [[u v] d] He. apply reachable_closed in HG.
    rewrite edges_closed_alt in HG. destruct (HG u v d He) as [Hu _].
    by apply dict_has_true in Hu.
Qed.

(** The scoped scan is the unscoped scan of the scoped node set. *)
Lemma find_relevant_nodes_scope G query_terms recording_id :
  find_relevant_nodes G query_terms recording_id
  = flat_map (scan_node query_terms None) (summary_nodes G recording_id).
Proof.
  unfold find_relevant_nodes, summary_nodes.
  destruct recording_id as [z|]; [|done].
  destruct (decide (z = 0%Z)) as [->|Hz]; [done|].
  induction (nx.nodes G) as [|[n d] l IH]; [done|].
  rewrite filter_cons. simpl. rewrite IH.
  unfold truthy, rid_differs. rewrite (proj2 (Z.eqb_neq z 0) Hz). simpl.
  destruct (decide (Node.recording_id d = z)) as [Heq|Hne].
  - rewrite bool_decide_eq_true_2 by (by rewrite Heq). done.
  - rewrite bool_decide_eq_false_2 by (intros [= ?]; done). done.
Qed.

(** ** Scenarios of the specification *)

Example summary_scenario :
  get_graph_summary ada_store (Some 1%Z)
  = {| Summary.total_entities := 2;
       Summary.total_relationships := 1;
       Summary.entity_types := [("PERSON", 1%nat); ("CONCEPT", 1%nat)];
       Summary.relationship_types := [("discusses", 1%nat)];
       Summary.recordings_covered := 1 |}.
Proof. reflexivity. Qed.

Example direction_and_type_distinct :
  _deduplicate_relationships
    [Rel.mk "A" "B" "discusses" (7 # 10) None; Rel.mk "a" "b" "discusses" (1 # 2) None;
     Rel.mk "A" "B" "depends_on" (7 # 10) None; Rel.mk "B" "A" "discusses" (7 # 10) None]
  = [Rel.mk "A" "B" "discusses" (7 # 10) None;
     Rel.mk "A" "B" "depends_on" (7 # 10) None; Rel.mk "B" "A" "discusses" (7 # 10) None].
Proof. reflexivity. Qed.

Example matching_is_substring :
  node_matches ["learning"] (PyStr.lower "Machine Learning") = true
  ∧ node_matches ["machine learning systems"] (PyStr.lower "Machine Learning") = true
  ∧ node_matches ["ml systems"] (PyStr.lower "Deep Learning") = false.
Proof. split_and!; reflexivity. Qed.

(** ** Merging a fragment: what the store keeps and what it overwrites *)

Lemma dict_set_length_ge {K V : Type} `{EqDecision K} (m : list (K * V)) k v :
  (length m ≤ length (dict_set k v m))%nat.
Proof.
  induction m as [|[k0 v0] m IH]; simpl; [lia|].
  destruct (decide (k = k0)); simpl; lia.
Qed.

Lemma fold_nodes_get_frame rid nodes G k :
  k ∉ FragNode.id <$> nodes →
  dict_get k (nx._node (fold_left (add_fragment_node rid) nodes G))
  = dict_get k (nx._node G).
Proof.
  revert G. induction nodes as [|n nodes IH]; csimpl; intros G Hk; [done|].
  apply not_elem_of_cons in Hk as [Hne Hk]. rewrite IH by done.
  simpl. rewrite dict_get_set. by rewrite decide_False.
Qed.

Lemma add_fragment_edge_has_edge rid G e u v :
  nx.has_edge u v G = true → nx.has_edge u v (add_fragment_edge rid G e) = true.
Proof.
  unfold add_fragment_edge. case_match; [|done].
  unfold nx.has_edge. simpl. rewrite !dict_has_true. apply dict_keys_set_mono.
Qed.

Lemma fold_edges_has_edge rid edges G u v :
  nx.has_edge u v G = true →
  nx.has_edge u v (fold_left (add_fragment_edge rid) edges G) = true.
Proof.
  revert G. induction edges as [|e edges IH]; simpl; intros G Huv; [done|].
  by apply IH, add_fragment_edge_has_edge.
Qed.

Lemma add_fragment_edge_count rid G e :
  (nx.number_of_edges G ≤ nx.number_of_edges (add_fragment_edge rid G e))%nat.
Proof.
  unfold add_fragment_edge. case_match; [|done].
  unfold nx.number_of_edges. simpl. apply dict_set_length_ge.
Qed.

Lemma fold_edges_count rid edges G :
  (nx.number_of_edges G
   ≤ nx.number_of_edges (fold_left (add_fragment_edge rid) edges G))%nat.
Proof.
  revert G. induction edges as [|e edges IH]; simpl; intros G; [done|].
  etrans; [apply (add_fragment_edge_count rid G e) | apply IH].
Qed.

Lemma fold_nodes_count rid nodes G :
  (nx.number_of_nodes G
   ≤ nx.number_of_nodes (fold_left (add_fragment_node rid) nodes G))%nat.
Proof.
  revert G. induction nodes as [|n nodes IH]; simpl; intros G; [done|].
  etrans; [|apply IH]. unfold nx.number_of_nodes. simpl. apply dict_set_length_ge.
Qed.

(** X1: a merge never removes anything: every node and every edge of the
    store is still there afterwards, and neither count decreases. *)
Theorem merge_never_removes (recording_id : Z) (graph_data : GraphData.t)
    (G : nx.DiGraph) :
  let G' := _add_to_networkx_graph recording_id graph_data G in
  (∀ n, nx.has_node n G = true → nx.has_node n G' = true)
  ∧ (∀ u v, nx.has_edge u v G = true → nx.has_edge u v G' = true)
  ∧ (nx.number_of_nodes G ≤ nx.number_of_nodes G')%nat
  ∧ (nx.number_of_edges G ≤ nx.number_of_edges G')%nat.
Proof.
  intros G'. unfold G', _add_to_networkx_graph. split_and!.
  - intros n Hn. unfold nx.has_node. rewrite fold_edges_node.
    apply fold_nodes_has_node. by left.
  - intros u v Huv. apply fold_edges_has_edge.
    unfold nx.has_edge. by rewrite fold_nodes_adj.
  - unfold nx.number_of_nodes at 2. rewrite fold_edges_node. apply fold_nodes_count.
  - etrans; [|apply fold_edges_count].
    unfold nx.number_of_edges. by rewrite fold_nodes_adj.
Qed.

Lemma fold_edges_get rid edges G e :
  e ∈ edges →
  nx.has_node (FragEdge.source e) G = true →
  nx.has_node (FragEdge.target e) G = true →
  ∃ d, dict_get (FragEdge.source e, FragEdge.target e)
         (nx._adj (fold_left (add_fragment_edge rid) edges G)) = Some d
       ∧ Edge.recording_id d = rid.
Proof.
  intros He Hs Ht. induction edges as [|x edges IH] using rev_ind.
  - by apply elem_of_nil in He.
  - rewrite fold_left_app. simpl.
    set (G1 := fold_left (add_fragment_edge rid) edges G) in *.
    assert (Hnodes : nx._node G1 = nx._node G) by apply fold_edges_node.
    unfold add_fragment_edge.
    apply elem_of_app in He as [He|He].
    + destruct (IH He) as (d & Hd & Hrid).
      case_match; [|eauto]. simpl. rewrite dict_get_set.
      case_decide; [|eauto]. eauto.
    + apply list_elem_of_singleton in He as ->.
      unfold nx.has_node in *. rewrite Hnodes, Hs, Ht. simpl.
      rewrite dict_get_set, decide_True by done. eauto.
Qed.

(** X2: an edge of the fragment whose two endpoints are store nodes or
    nodes of the fragment is in the merged store, tagged with the
    recording id of the merge. *)
Theorem merge_inserts_known_edges (recording_id : Z) (graph_data : GraphData.t)
    (G : nx.DiGraph) (e : FragEdge.t)
    (He : e ∈ GraphData.edges graph_data)
    (Hsource : nx.has_node (FragEdge.source e) G = true
               ∨ FragEdge.source e ∈ FragNode.id <$> GraphData.nodes graph_data)
    (Htarget : nx.has_node (FragEdge.target e) G = true
               ∨ FragEdge.target e ∈ FragNode.id <$> GraphData.nodes graph_data) :
  let G' := _add_to_networkx_graph recording_id graph_data G in
  nx.has_edge (FragEdge.source e) (FragEdge.target e) G' = true
  ∧ ∃ d, dict_get (FragEdge.source e, FragEdge.target e) (nx._adj G') = Some d
         ∧ Edge.recording_id d = recording_id.
Proof.
  intros G'. unfold G', _add_to_networkx_graph.
  destruct (fold_edges_get recording_id (GraphData.edges graph_data)
              (fold_left (add_fragment_node recording_id) (GraphData.nodes graph_data) G)
              e He) as (d & Hd & Hrid).
  - by apply fold_nodes_has_node.
  - by apply fold_nodes_has_node.
  - split; [|eauto]. unfold nx.has_edge, dict_has. rewrite Hd.
    by apply bool_decide_eq_true_2.
Qed.

Lemma merge_inserts_known_edges_witness :
  let graph_data :=
    _build_graph_structure 2
      [Entity.mk "Ada" "PERSON" None 1 "spacy"]
      [Rel.mk "Ada" "Graph" "leads" (1 # 2) None] [] in
  let e := FragEdge.mk "Ada" "Graph" "leads" (1 # 2) 2 in
  e ∈ GraphData.edges graph_data
  ∧ nx.has_edge "Ada" "Graph" (_add_to_networkx_graph 2 graph_data ada_store) = true.
Proof.
  intros graph_data e.
  assert (He : e ∈ GraphData.edges graph_data) by (apply list_elem_of_singleton; reflexivity).
  split; [exact He|].
  apply (merge_inserts_known_edges 2 graph_data ada_store e He).
  - right. apply list_elem_of_singleton. reflexivity.
  - left. reflexivity.
Defined.

Lemma merge_node_last rid graph_data G before after node :
  GraphData.nodes graph_data = before ++ node :: after →
  FragNode.id node ∉ FragNode.id <$> after →
  dict_get (FragNode.id node) (nx.nodes (_add_to_networkx_graph rid graph_data G))
  = Some {| Node.label := FragNode.label node;
            Node.type := FragNode.type node;
            Node.confidence := FragNode.confidence node;
            Node.recording_id := rid |}.
Proof.
  intros Hnodes Hlast.
  unfold nx.nodes, _add_to_networkx_graph. rewrite fold_edges_node, Hnodes.
  rewrite fold_left_app. simpl. rewrite fold_nodes_get_frame by done.
  simpl. rewrite dict_get_set. by rewrite decide_True.
Qed.

Lemma merge_node_frame rid graph_data G k :
  k ∉ FragNode.id <$> GraphData.nodes graph_data →
  dict_get k (nx.nodes (_add_to_networkx_graph rid graph_data G))
  = dict_get k (nx.nodes G).
Proof.
  intros Hk. unfold nx.nodes, _add_to_networkx_graph. rewrite fold_edges_node.
  by apply fold_nodes_get_frame.
Qed.

(** X3: last write wins.  The node of the fragment that comes last with its
    id decides the stored attributes, and the stored recording id is the
    one of the merge, whatever the store held before. *)
Theorem merge_overwrites_node (recording_id : Z) (graph_data : GraphData.t)
    (G : nx.DiGraph) (before after : list FragNode.t) (node : FragNode.t)
    (Hnodes : GraphData.nodes graph_data = before ++ node :: after)
    (Hlast : FragNode.id node ∉ FragNode.id <$> after) :
  dict_get (FragNode.id node)
    (nx.nodes (_add_to_networkx_graph recording_id graph_data G))
  = Some {| Node.label := FragNode.label node;
            Node.type := FragNode.type node;
            Node.confidence := FragNode.confidence node;
            Node.recording_id := recording_id |}.
Proof.
  unfold nx.nodes, _add_to_networkx_graph. rewrite fold_edges_node, Hnodes.
  rewrite fold_left_app. simpl. rewrite fold_nodes_get_frame by done.
  simpl. rewrite dict_get_set. by rewrite decide_True.
Qed.

Lemma merge_overwrites_node_witness :
  let graph_data :=
    _build_graph_structure 7 [Entity.mk "Ada" "ORG" None (1 # 2) "openai"] [] [] in
  dict_get "Ada" (nx.nodes ada_store) = Some (Node.mk "Ada" "PERSON" 1 1%Z)
  ∧ dict_get "Ada" (nx.nodes (_add_to_networkx_graph 7 graph_data ada_store))
    = Some (Node.mk "Ada" "ORG" (1 # 2) 7%Z).
Proof.
  intros graph_data. split; [reflexivity|].
  apply (merge_overwrites_node 7 graph_data ada_store [] []
           (FragNode.mk "Ada" "Ada" "ORG" (1 # 2) 7 None)).
  - reflexivity.
  - apply not_elem_of_nil.
Defined.

(** X4: a node whose id is not in the fragment keeps its attributes. *)
Theorem merge_keeps_other_nodes (recording_id : Z) (graph_data : GraphData.t)
    (G : nx.DiGraph) (k : string)
    (Hk : k ∉ FragNode.id <$> GraphData.nodes graph_data) :
  dict_get k (nx.nodes (_add_to_networkx_graph recording_id graph_data G))
  = dict_get k (nx.nodes G).
Proof.
  unfold nx.nodes, _add_to_networkx_graph. rewrite fold_edges_node.
  by apply fold_nodes_get_frame.
Qed.

Lemma merge_keeps_other_nodes_witness :
  let graph_data :=
    _build_graph_structure 7 [Entity.mk "Ada" "ORG" None (1 # 2) "openai"] [] [] in
  ("Graph" ∉ FragNode.id <$> GraphData.nodes graph_data)
  ∧ dict_get "Graph" (nx.nodes (_add_to_networkx_graph 7 graph_data ada_store))
    = dict_get "Graph" (nx.nodes ada_store).
Proof.
  intros graph_data.
  assert (Hk : "Graph" ∉ FragNode.id <$> GraphData.nodes graph_data).
  { intros Hin. apply list_elem_of_singleton in Hin. discriminate Hin. }
  split; [exact Hk|].
  by apply (merge_keeps_other_nodes 7 graph_data ada_store "Graph").
Defined.

(** ** The fragment builder: key-point nodes *)

Lemma length_substring_le (n : nat) (s : string) :
  (String.length (String.substring 0 n s) ≤ n)%nat.
Proof.
  revert s. induction n as [|n IH]; intros [|c s]; simpl; try lia.
  specialize (IH s). lia.
Qed.





Lemma occurs_uint (d : Decimal.uint) : occurs "_" (NilEmpty.string_of_uint d) = false.
Proof. induction d; simpl; done. Qed.

Lemma occurs_str_of_int (z : Z) : occurs "_" (str_of_int z) = false.
Proof.
  unfold str_of_int, NilZero.string_of_int, NilZero.string_of_uint.
  destruct (Z.to_int z) as [d|d]; destruct d; simpl; try done; apply occurs_uint.
Qed.

Lemma str_of_int_inj (z z' : Z) : str_of_int z = str_of_int z' → z = z'.
Proof.
  unfold str_of_int. intros Heq. apply DecimalZ.to_int_inj.
  assert (Hrt : ∀ n, NilZero.int_of_string (NilZero.string_of_int (Z.to_int n))
                     = Some (Z.to_int n)).
  { intros n. apply NilZero.isi; destruct n; simpl; try discriminate;
      intros [= H]; by apply Unsigned.to_uint_nonnil in H. }
  apply (f_equal NilZero.int_of_string) in Heq. rewrite !Hrt in Heq. congruence.
Qed.

(** Two strings cut at a separator that neither left part contains are cut
    at the same place. *)
Lemma app_separator_inj (c : ascii) (a a' b b' : string) :
  occurs c a = false → occurs c a' = false →
  a +:+ String c b = a' +:+ String c b' → a = a' ∧ b = b'.
Proof.
  revert a'. induction a as [|x a IH]; intros [|x' a']; simpl; intros Ha Ha' Heq.
  - by injection Heq as ->.
  - injection Heq as <- _. by rewrite Ascii.eqb_refl in Ha'.
  - injection Heq as -> _. by rewrite Ascii.eqb_refl in Ha.
  - apply orb_false_iff in Ha as [_ Ha]. apply orb_false_iff in Ha' as [_ Ha'].
    injection Heq as -> Heq. destruct (IH a' Ha Ha' Heq) as [-> ->]. done.
Qed.

Lemma key_point_id_inj r r' i i' point point' :
  FragNode.id (key_point_node r i point) = FragNode.id (key_point_node r' i' point') →
  r = r' ∧ i = i'.
Proof.
  simpl. intros Heq. injection Heq as Heq.
  apply app_separator_inj in Heq as [Hr Hi]; try apply occurs_str_of_int.
  apply str_of_int_inj in Hr, Hi. split; [done | lia].
Qed.

(** X7: the id of a key-point node determines the recording id and the
    index: key points of different recordings, or at different positions,
    never share a node. *)
Theorem key_point_id_injective (recording_id recording_id' : Z) (i i' : nat)
    (point point' : string) :
  FragNode.id (key_point_node recording_id i point)
  = FragNode.id (key_point_node recording_id' i' point')
  ↔ recording_id = recording_id' ∧ i = i'.
Proof.
  split; [apply key_point_id_inj | by intros [-> ->]].
Qed.

Lemma build_graph_structure_nodes rid entities relationships key_points :
  FragNode.id <$> GraphData.nodes
    (_build_graph_structure rid entities relationships key_points)
  = (Entity.text <$> entities)
    ++ imap (λ i point, FragNode.id (key_point_node rid i point)) key_points.
Proof.
  unfold _build_graph_structure. simpl.
  rewrite fmap_app, <- list_fmap_compose, fmap_imap. done.
Qed.

(** Where the node of the [i]-th key point sits in the fragment: after the
    entity nodes and the earlier key points, before the later ones. *)
Lemma build_graph_structure_key_point rid entities relationships key_points i point :
  key_points !! i = Some point →
  ∃ before after,
    GraphData.nodes (_build_graph_structure rid entities relationships key_points)
    = before ++ key_point_node rid i point :: after
    ∧ FragNode.id (key_point_node rid i point) ∉ FragNode.id <$> after.
Proof.
  intros Hi. unfold _build_graph_structure. simpl.
  rewrite <- (take_drop_middle key_points i point Hi).
  rewrite imap_app, imap_cons.
  assert (Hlen : length (take i key_points) = i).
  { apply length_take_le. apply lookup_lt_Some in Hi. lia. }
  rewrite Hlen, Nat.add_0_r.
  eexists _, _. split; [by rewrite app_assoc|].
  intros Hin. apply list_elem_of_fmap in Hin as (x & Hid & Hx).
  apply elem_of_lookup_imap_1 in Hx as (j & y & -> & _).
  apply (key_point_id_inj _ _ _ _ point y) in Hid as [_ Hij]. simpl in Hij. lia.
Qed.

(** X8: the upload pipeline builds the graph with the placeholder id 0 and
    again with the real id.  The key-point nodes of the first build are not
    touched by the second: they stay in the store, tagged with recording
    id 0, unless an entity of the second build is named like one of them. *)
Theorem placeholder_key_points_stay (recording_id : Z)
    (entities entities' : list Entity.t) (relationships relationships' : list Rel.t)
    (key_points key_points' : list string) (G : nx.DiGraph) (i : nat) (point : string)
    (Hreal : recording_id ≠ 0%Z)
    (Hpoint : key_points !! i = Some point)
    (Hname : FragNode.id (key_point_node 0 i point) ∉ Entity.text <$> entities') :
  let G0 :=
    _add_to_networkx_graph 0
      (_build_graph_structure 0 entities relationships key_points) G in
  let G1 :=
    _add_to_networkx_graph recording_id
      (_build_graph_structure recording_id entities' relationships' key_points') G0 in
  dict_get (FragNode.id (key_point_node 0 i point)) (nx.nodes G1)
  = Some {| Node.label := FragNode.label (key_point_node 0 i point);
            Node.type := "KEY_POINT";
            Node.confidence := 1;
            Node.recording_id := 0 |}.
Proof.
  intros G0 G1. unfold G1. rewrite merge_node_frame.
  - destruct (build_graph_structure_key_point 0 entities relationships key_points
                i point Hpoint) as (before & after & Hnodes & Hlast).
    unfold G0. by rewrite (merge_node_last _ _ _ before after _ Hnodes Hlast).
  - rewrite build_graph_structure_nodes. intros Hin.
    apply elem_of_app in Hin as [Hin|Hin]; [done|].
    apply elem_of_lookup_imap_1 in Hin as (j & y & Hid & _).
    apply (key_point_id_inj _ _ _ _ point y) in Hid as [Hr _]. done.
Qed.

Lemma placeholder_key_points_stay_witness :
  let entities := [Entity.mk "Budget" "CONCEPT" None 1 "spacy"] in
  let key_points := ["Approve the budget"] in
  (7 ≠ 0)%Z
  ∧ key_points !! 0%nat = Some "Approve the budget"
  ∧ ("keypoint_0_0" ∉ Entity.text <$> entities)
  ∧ dict_get "keypoint_0_0"
      (nx.nodes
         (_add_to_networkx_graph 7 (_build_graph_structure 7 entities [] key_points)
            (_add_to_networkx_graph 0 (_build_graph_structure 0 entities [] key_points)
               nx.empty)))
    = Some (Node.mk "Approve the budget" "KEY_POINT" 1 0%Z).
Proof.
  intros entities key_points.
  assert (Hname : "keypoint_0_0" ∉ Entity.text <$> entities).
  { intros Hin. apply list_elem_of_singleton in Hin. discriminate Hin. }
  split; [discriminate|]. split; [reflexivity|]. split; [exact Hname|].
  apply (placeholder_key_points_stay 7 entities entities [] [] key_points key_points
           nx.empty 0 "Approve the budget"); [discriminate | reflexivity | exact Hname].
Defined.

(** ** Relationship extraction *)

Lemma split_nonempty (c : ascii) (s : string) : PyStr.split c s ≠ [].
Proof.
  induction s as [|x s IH]; simpl; [done|].
  destruct (Ascii.eqb x c); [done|]. by destruct (PyStr.split c s).
Qed.

(** No piece of a split contains the separator. *)
Lemma split_no_separator (c : ascii) (s piece : string) :
  piece ∈ PyStr.split c s → occurs c piece = false.
Proof.
  revert piece. induction s as [|x s IH]; simpl; intros piece Hin.
  - apply list_elem_of_singleton in Hin as ->. done.
  - destruct (Ascii.eqb x c) eqn:Hx.
    + apply elem_of_cons in Hin as [->|Hin]; [done | by apply IH].
    + destruct (PyStr.split c s) as [|w ws] eqn:Hsplit.
      * apply list_elem_of_singleton in Hin as ->. simpl.
        rewrite Ascii.eqb_sym, Hx. done.
      * apply elem_of_cons in Hin as [->|Hin].
        -- simpl. rewrite Ascii.eqb_sym, Hx. simpl. apply IH, elem_of_cons; auto.
        -- apply IH, elem_of_cons; auto.
Qed.

Lemma sentence_relationships_elem entity_texts sentence r :
  r ∈ sentence_relationships entity_texts sentence ↔
  ∃ i j source target,
    (i < j)%nat
    ∧ sentence_entities entity_texts sentence !! i = Some source
    ∧ sentence_entities entity_texts sentence !! j = Some target
    ∧ r = mentioned_together sentence source target.
Proof.
  unfold sentence_relationships. fold (sentence_entities entity_texts sentence).
  set (l := sentence_entities entity_texts sentence).
  rewrite list_elem_of_In, in_flat_map. split.
  - intros ([i a] & Hia & Hr). apply list_elem_of_In in Hia, Hr.
    apply elem_of_lookup_imap_1 in Hia as (i' & a' & [= -> ->] & Hi).
    apply list_elem_of_fmap in Hr as (b & -> & Hb). simpl in Hb.
    apply list_elem_of_lookup in Hb as [k Hk]. rewrite lookup_drop in Hk.
    exists i', (S i' + k)%nat, a', b. split_and!; [lia | done | done | done].
  - intros (i & j & a & b & Hij & Hi & Hj & ->).
    exists (i, a). split.
    + apply list_elem_of_In. by apply (elem_of_lookup_imap_2 pair l a i).
    + apply list_elem_of_In, list_elem_of_fmap. exists b. split; [done|]. simpl.
      apply list_elem_of_lookup. exists (j - S i)%nat. rewrite lookup_drop.
      by replace (S i + (j - S i))%nat with j by lia.
Qed.

Lemma sentence_entities_elem entity_texts sentence e :
  e ∈ sentence_entities entity_texts sentence ↔
  e ∈ entity_texts ∧ PyStr.contains (PyStr.lower e) (PyStr.lower sentence) = true.
Proof. unfold sentence_entities. rewrite list_elem_of_filter. tauto. Qed.

Lemma extract_relationships_elem chat text entities r :
  r ∈ _extract_relationships chat text entities →
  r ∈ _extract_relationships_with_openai chat text (Entity.text <$> entities)
  ∨ ∃ sentence, sentence ∈ PyStr.split "." text
      ∧ r ∈ sentence_relationships (Entity.text <$> entities) sentence.
Proof.
  unfold _extract_relationships. intros Hr.
  pose proof (elem_of_sublist _ _ _ Hr (dedup_rel_sublist _)) as Hin.
  clear Hr. rename Hin into Hr.
  apply elem_of_app in Hr as [Hr|Hr]; [right|by left].
  apply list_elem_of_In, in_flat_map in Hr as (s & Hs & Hr).
  exists s. by rewrite !list_elem_of_In.
Qed.

(** X9: with fewer than two entities there is nothing to relate: the
    result is empty, whatever the text and whatever the chat model would
    answer. *)
Theorem extract_relationships_few_entities (chat : ChatRelationships)
    (text : string) (entities : list Entity.t)
    (Hfew : (length entities < 2)%nat) :
  _extract_relationships chat text entities = [].
Proof.
  destruct (_extract_relationships chat text entities) as [|r rest] eqn:Hres; [done|].
  exfalso.
  assert (Hr : r ∈ _extract_relationships chat text entities)
    by (rewrite Hres; apply elem_of_cons; auto).
  apply extract_relationships_elem in Hr as [Hr|(s & _ & Hr)].
  - unfold _extract_relationships_with_openai in Hr. rewrite length_fmap in Hr.
    rewrite (proj2 (Nat.ltb_lt _ _) Hfew) in Hr. by apply elem_of_nil in Hr.
  - apply sentence_relationships_elem in Hr as (i & j & a & b & Hij & Hi & Hj & _).
    apply lookup_lt_Some in Hj.
    pose proof (length_filter
      (λ e, PyStr.contains (PyStr.lower e) (PyStr.lower s) = true)
      (Entity.text <$> entities)) as Hle.
    unfold sentence_entities in Hj. rewrite length_fmap in Hle. lia.
Qed.

Lemma extract_relationships_few_entities_witness :
  let chat : ChatRelationships :=
    λ _ _, Returned [Rel.mk "Ada" "Graph" "leads" (9 # 10) None] in
  let entities := [Entity.mk "Ada" "PERSON" None 1 "spacy"] in
  (length entities < 2)%nat
  ∧ _extract_relationships chat "Ada leads. Ada again." entities = [].
Proof.
  intros chat entities. split; [simpl; lia|].
  apply extract_relationships_few_entities. simpl. lia.
Defined.

(** X10: every relationship returned comes from the chat model or from one
    sentence of the text (a piece between periods, so without a period):
    then it is a "mentioned_together" relationship of confidence 0.7 whose
    context is the trimmed sentence, between two entity names that both
    occur in the sentence, case-insensitively. *)
Theorem extract_relationships_origin (chat : ChatRelationships) (text : string)
    (entities : list Entity.t) (r : Rel.t)
    (Hr : r ∈ _extract_relationships chat text entities) :
  r ∈ _extract_relationships_with_openai chat text (Entity.text <$> entities)
  ∨ ∃ sentence,
      sentence ∈ PyStr.split "." text
      ∧ occurs "." sentence = false
      ∧ Rel.relationship r = "mentioned_together"
      ∧ Rel.confidence r = 7 # 10
      ∧ Rel.context r = Some (PyStr.strip sentence)
      ∧ Rel.source r ∈ Entity.text <$> entities
      ∧ Rel.target r ∈ Entity.text <$> entities
      ∧ PyStr.contains (PyStr.lower (Rel.source r)) (PyStr.lower sentence) = true
      ∧ PyStr.contains (PyStr.lower (Rel.target r)) (PyStr.lower sentence) = true.
Proof.
  apply extract_relationships_elem in Hr as [Hr|(s & Hs & Hr)]; [by left|right].
  apply sentence_relationships_elem in Hr as (i & j & a & b & Hij & Hi & Hj & ->).
  apply list_elem_of_lookup_2 in Hi, Hj.
  apply (proj1 (sentence_entities_elem _ _ _)) in Hi as [Ha Hca].
  apply (proj1 (sentence_entities_elem _ _ _)) in Hj as [Hb Hcb].
  exists s. split_and!; try done. by apply (split_no_separator _ text).
Qed.

Lemma extract_relationships_origin_witness :
  let chat : ChatRelationships := λ _ _, Raised in
  let entities :=
    [Entity.mk "Ada" "PERSON" None 1 "spacy"; Entity.mk "Graph" "CONCEPT" None 1 "spacy"] in
  let text := "Hello. ada draws a GRAPH . Bye" in
  let r := Rel.mk "Ada" "Graph" "mentioned_together" (7 # 10) (Some "ada draws a GRAPH") in
  r ∈ _extract_relationships chat text entities
  ∧ (r ∈ _extract_relationships_with_openai chat text (Entity.text <$> entities)
     ∨ ∃ sentence,
         sentence ∈ PyStr.split "." text
         ∧ occurs "." sentence = false
         ∧ Rel.relationship r = "mentioned_together"
         ∧ Rel.confidence r = 7 # 10
         ∧ Rel.context r = Some (PyStr.strip sentence)
         ∧ Rel.source r ∈ Entity.text <$> entities
         ∧ Rel.target r ∈ Entity.text <$> entities
         ∧ PyStr.contains (PyStr.lower (Rel.source r)) (PyStr.lower sentence) = true
         ∧ PyStr.contains (PyStr.lower (Rel.target r)) (PyStr.lower sentence) = true).
Proof.
  intros chat entities text r.
  assert (Hr : r ∈ _extract_relationships chat text entities).
  { apply list_elem_of_singleton. reflexivity. }
  split; [exact Hr | exact (extract_relationships_origin chat text entities r Hr)].
Defined.

(** X11: when the entity names are pairwise distinct, one sentence never
    relates a name to itself and never relates two names in both
    directions. *)
Theorem sentence_relationships_one_direction (entity_texts : list string)
    (sentence : string) (r r' : Rel.t)
    (Hdistinct : NoDup entity_texts)
    (Hr : r ∈ sentence_relationships entity_texts sentence)
    (Hr' : r' ∈ sentence_relationships entity_texts sentence) :
  Rel.source r ≠ Rel.target r
  ∧ ¬ (Rel.source r' = Rel.target r ∧ Rel.target r' = Rel.source r).
Proof.
  assert (Hnd : NoDup (sentence_entities entity_texts sentence))
    by (by apply NoDup_filter).
  apply sentence_relationships_elem in Hr as (i & j & a & b & Hij & Hi & Hj & ->).
  apply sentence_relationships_elem in Hr' as (i' & j' & a' & b' & Hij' & Hi' & Hj' & ->).
  simpl. split.
  - intros ->. pose proof (NoDup_lookup _ _ _ _ Hnd Hi Hj). lia.
  - intros [-> ->].
    pose proof (NoDup_lookup _ _ _ _ Hnd Hi Hj').
    pose proof (NoDup_lookup _ _ _ _ Hnd Hj Hi'). lia.
Qed.

Lemma sentence_relationships_one_direction_witness :
  let r := mentioned_together "Ada met Bob" "Ada" "Bob" in
  NoDup ["Ada"; "Bob"]
  ∧ r ∈ sentence_relationships ["Ada"; "Bob"] "Ada met Bob"
  ∧ Rel.source r ≠ Rel.target r
  ∧ ¬ (Rel.source r = Rel.target r ∧ Rel.target r = Rel.source r).
Proof.
  intros r.
  assert (Hnd : NoDup ["Ada"; "Bob"]).
  { apply NoDup_cons. split; [|apply NoDup_singleton].
    intros Hin. apply list_elem_of_singleton in Hin. discriminate Hin. }
  assert (Hr : r ∈ sentence_relationships ["Ada"; "Bob"] "Ada met Bob").
  { apply list_elem_of_singleton. reflexivity. }
  split; [exact Hnd|]. split; [exact Hr|].
  apply (sentence_relationships_one_direction ["Ada"; "Bob"] "Ada met Bob" r r Hnd Hr Hr).
Defined.

(** ** Building the graph of a recording *)

Lemma dict_set_length_le {K V : Type} `{EqDecision K} (m : list (K * V)) k v :
  (length (dict_set k v m) ≤ S (length m))%nat.
Proof.
  induction m as [|[k0 v0] m IH]; simpl; [lia|].
  destruct (decide (k = k0)); simpl; lia.
Qed.

Lemma fold_nodes_count_le rid nodes G :
  (nx.number_of_nodes (fold_left (add_fragment_node rid) nodes G)
   ≤ nx.number_of_nodes G + length nodes)%nat.
Proof.
  revert G. induction nodes as [|n nodes IH]; simpl; intros G; [lia|].
  etrans; [apply IH|]. unfold nx.number_of_nodes. simpl.
  pose proof (dict_set_length_le (nx._node G) (FragNode.id n)
    {| Node.label := FragNode.label n; Node.type := FragNode.type n;
       Node.confidence := FragNode.confidence n; Node.recording_id := rid |}).
  lia.
Qed.

Lemma fold_edges_count_le rid edges G :
  (nx.number_of_edges (fold_left (add_fragment_edge rid) edges G)
   ≤ nx.number_of_edges G + length edges)%nat.
Proof.
  revert G. induction edges as [|e edges IH]; simpl; intros G; [lia|].
  etrans; [apply IH|]. unfold add_fragment_edge. case_match; [|lia].
  unfold nx.number_of_edges. simpl.
  pose proof (dict_set_length_le (nx._adj G) (FragEdge.source e, FragEdge.target e)
    {| Edge.relationship := FragEdge.relationship e;
       Edge.confidence := FragEdge.confidence e; Edge.recording_id := rid |}).
  lia.
Qed.

Lemma merge_nodes_tagged rid graph_data G node :
  node ∈ GraphData.nodes graph_data →
  ∃ d, dict_get (FragNode.id node) (nx.nodes (_add_to_networkx_graph rid graph_data G))
       = Some d
       ∧ Node.recording_id d = rid.
Proof.
  unfold nx.nodes, _add_to_networkx_graph. rewrite fold_edges_node.
  induction (GraphData.nodes graph_data) as [|x nodes IH] using rev_ind; intros Hin.
  - by apply elem_of_nil in Hin.
  - rewrite fold_left_app. simpl. rewrite dict_get_set.
    case_decide; [eauto|].
    apply elem_of_app in Hin as [Hin|Hin]; [by apply IH|].
    apply list_elem_of_singleton in Hin. by subst.
Qed.

Lemma merge_known_edge rid graph_data G e :
  e ∈ GraphData.edges graph_data →
  FragEdge.source e ∈ FragNode.id <$> GraphData.nodes graph_data →
  FragEdge.target e ∈ FragNode.id <$> GraphData.nodes graph_data →
  nx.has_edge (FragEdge.source e) (FragEdge.target e)
    (_add_to_networkx_graph rid graph_data G) = true.
Proof.
  intros He Hs Ht. unfold _add_to_networkx_graph.
  destruct (fold_edges_get rid (GraphData.edges graph_data)
              (fold_left (add_fragment_node rid) (GraphData.nodes graph_data) G)
              e He) as (d & Hd & _).
  - apply fold_nodes_has_node. by right.
  - apply fold_nodes_has_node. by right.
  - unfold nx.has_edge, dict_has. rewrite Hd. by apply bool_decide_eq_true_2.
Qed.


(** X13: after a successful build every node of the returned graph_data,
    entity or key point, is a store node tagged with the recording id of
    the build, and every entity name and key point has its node. *)
Theorem build_nodes_stored (C : Collaborators) (chat : ChatRelationships)
    (recording_id : Z) (transcript summary : string) (key_points : list string)
    (G : nx.DiGraph) (entities : list Entity.t)
    (Hextract : _extract_entities C (transcript +:+ " " +:+ summary)
                = Returned entities) :
  let result :=
    build_knowledge_graph C chat recording_id transcript summary key_points G in
  BuildResult.entities result.1 = length entities
  ∧ ∃ graph_data,
      BuildResult.graph_data result.1 = Some graph_data
      ∧ length (GraphData.nodes graph_data)
        = (length entities + length key_points)%nat
      ∧ (∀ e, e ∈ entities →
           Entity.text e ∈ FragNode.id <$> GraphData.nodes graph_data)
      ∧ ∀ node, node ∈ GraphData.nodes graph_data →
          ∃ d, dict_get (FragNode.id node) (nx.nodes result.2) = Some d
               ∧ Node.recording_id d = recording_id.
Proof.
  intros result. unfold result, build_knowledge_graph. rewrite Hextract. simpl.
  split; [done|].
  exists (_build_graph_structure recording_id entities
            (_extract_relationships chat transcript entities) key_points).
  split; [done|]. split_and!.
  - unfold _build_graph_structure. simpl.
    by rewrite length_app, length_fmap, length_imap.
  - intros e He. rewrite build_graph_structure_nodes. apply elem_of_app. left.
    by apply list_elem_of_fmap_2.
  - intros node Hnode. by apply merge_nodes_tagged.
Qed.

Lemma build_nodes_stored_witness :
  let C := {| nlp := Some (λ _, Returned [Span.mk "Ada" "PERSON" 0 3]);
              chat_entities := λ _, Raised |} in
  _extract_entities C ("Ada leads" +:+ " " +:+ "short")
  = Returned [Entity.mk "Ada" "PERSON" (Some (0, 3)%Z) 1 "spacy"]
  ∧ BuildResult.entities
      (build_knowledge_graph C (λ _ _, Raised) 3 "Ada leads" "short" ["point"] nx.empty).1
    = 1%nat.
Proof.
  intros C. split; [reflexivity|].
  apply (build_nodes_stored C (λ _ _, Raised) 3 "Ada leads" "short" ["point"] nx.empty
           [Entity.mk "Ada" "PERSON" (Some (0, 3)%Z) 1 "spacy"]).
  reflexivity.
Defined.

(** X14: in a build, a relationship that does not come from the chat model
    always becomes an edge of the store: only chat relationships can name
    an unknown entity and be dropped. *)
Theorem build_stores_cooccurrences (C : Collaborators) (chat : ChatRelationships)
    (recording_id : Z) (transcript summary : string) (key_points : list string)
    (G : nx.DiGraph) (entities : list Entity.t) (r : Rel.t)
    (Hextract : _extract_entities C (transcript +:+ " " +:+ summary)
                = Returned entities)
    (Hr : r ∈ _extract_relationships chat transcript entities)
    (Hown : r ∉ _extract_relationships_with_openai chat transcript
                  (Entity.text <$> entities)) :
  nx.has_edge (Rel.source r) (Rel.target r)
    (build_knowledge_graph C chat recording_id transcript summary key_points G).2
  = true.
Proof.
  unfold build_knowledge_graph. rewrite Hextract. simpl.
  destruct (extract_relationships_elem _ _ _ _ Hr) as [Hchat|(s & Hs & Hrs)]; [done|].
  apply sentence_relationships_elem in Hrs as (i & j & a & b & Hij & Hi & Hj & Heq).
  apply list_elem_of_lookup_2 in Hi, Hj.
  apply (proj1 (sentence_entities_elem _ _ _)) in Hi as [Ha _].
  apply (proj1 (sentence_entities_elem _ _ _)) in Hj as [Hb _].
  set (gd := _build_graph_structure recording_id entities
               (_extract_relationships chat transcript entities) key_points).
  assert (Hids : ∀ t, t ∈ Entity.text <$> entities →
                   t ∈ FragNode.id <$> GraphData.nodes gd).
  { intros t Ht. unfold gd. rewrite build_graph_structure_nodes.
    apply elem_of_app. by left. }
  apply (merge_known_edge recording_id gd G
           {| FragEdge.source := Rel.source r; FragEdge.target := Rel.target r;
              FragEdge.relationship := Rel.relationship r;
              FragEdge.confidence := Rel.confidence r;
              FragEdge.recording_id := recording_id |}).
  - unfold gd, _build_graph_structure. simpl.
    by apply (list_elem_of_fmap_2
      (λ rel, {| FragEdge.source := Rel.source rel; FragEdge.target := Rel.target rel;
                 FragEdge.relationship := Rel.relationship rel;
                 FragEdge.confidence := Rel.confidence rel;
                 FragEdge.recording_id := recording_id |})).
  - simpl. apply Hids. by rewrite Heq.
  - simpl. apply Hids. by rewrite Heq.
Qed.

Lemma build_stores_cooccurrences_witness :
  let C := {| nlp := Some (λ _, Returned [Span.mk "Ada" "PERSON" 0 3;
                                          Span.mk "Graph" "CONCEPT" 10 15]);
              chat_entities := λ _, Raised |} in
  let chat : ChatRelationships :=
    λ _ _, Returned [Rel.mk "Ada" "Zed" "leads" (9 # 10) None] in
  let G' := (build_knowledge_graph C chat 3 "Ada draws a Graph" "short" [] nx.empty).2 in
  nx.has_edge "Ada" "Graph" G' = true ∧ nx.has_edge "Ada" "Zed" G' = false.
Proof.
  intros C chat G'. split; [|reflexivity].
  apply (build_stores_cooccurrences C chat 3 "Ada draws a Graph" "short" [] nx.empty
           [Entity.mk "Ada" "PERSON" (Some (0, 3)%Z) 1 "spacy";
            Entity.mk "Graph" "CONCEPT" (Some (10, 15)%Z) 1 "spacy"]
           (Rel.mk "Ada" "Graph" "mentioned_together" (7 # 10) (Some "Ada draws a Graph"))).
  - reflexivity.
  - apply elem_of_cons. left. reflexivity.
  - intros Hin. apply list_elem_of_singleton in Hin. discriminate Hin.
Defined.

(** X15: a build adds at most one node per reported entity and key point
    and at most one edge per reported relationship. *)
Theorem build_growth_bounded (C : Collaborators) (chat : ChatRelationships)
    (recording_id : Z) (transcript summary : string) (key_points : list string)
    (G : nx.DiGraph) :
  let result :=
    build_knowledge_graph C chat recording_id transcript summary key_points G in
  (nx.number_of_nodes G ≤ nx.number_of_nodes result.2
   ≤ nx.number_of_nodes G + BuildResult.entities result.1 + length key_points)%nat
  ∧ (nx.number_of_edges G ≤ nx.number_of_edges result.2
     ≤ nx.number_of_edges G + BuildResult.relationships result.1)%nat.
Proof.
  intros result. unfold result, build_knowledge_graph.
  destruct (_extract_entities C (transcript +:+ " " +:+ summary)) as [entities|];
    simpl; [|lia].
  set (rels := _extract_relationships chat transcript entities).
  set (gd := _build_graph_structure recording_id entities rels key_points).
  unfold _add_to_networkx_graph.
  set (G1 := fold_left (add_fragment_node recording_id) (GraphData.nodes gd) G).
  pose proof (fold_nodes_count recording_id (GraphData.nodes gd) G) as Hn1.
  pose proof (fold_nodes_count_le recording_id (GraphData.nodes gd) G) as Hn2.
  pose proof (fold_edges_count recording_id (GraphData.edges gd) G1) as He1.
  pose proof (fold_edges_count_le recording_id (GraphData.edges gd) G1) as He2.
  fold G1 in Hn1, Hn2.
  assert (Hnodes : length (GraphData.nodes gd) = (length entities + length key_points)%nat).
  { unfold gd, _build_graph_structure. simpl.
    by rewrite length_app, length_fmap, length_imap. }
  assert (Hedges : length (GraphData.edges gd) = length rels).
  { unfold gd, _build_graph_structure. simpl. by rewrite length_fmap. }
  assert (HG1 : nx.number_of_edges G1 = nx.number_of_edges G).
  { unfold nx.number_of_edges, G1. by rewrite fold_nodes_adj. }
  unfold nx.number_of_nodes at 2 3. rewrite fold_edges_node.
  fold (nx.number_of_nodes G1). lia.
Qed.

(** ** The query engine: matching, related concepts, paths *)

Lemma prefix_cons (c c' : ascii) (p s : string) :
  String.prefix (String c p) (String c' s)
  = if ascii_dec c c' then String.prefix p s else false.
Proof. reflexivity. Qed.

Lemma prefix_spec (p s : string) :
  String.prefix p s = true ↔ ∃ post, s = p +:+ post.
Proof.
  revert s. induction p as [|c p IH]; intros s.
  - split; [intros _; by exists s|]. intros _. by destruct s.
  - destruct s as [|c' s]; [split; [done | intros [post Hp]; done]|].
    rewrite prefix_cons. destruct (ascii_dec c c') as [->|Hne].
    + rewrite IH. split; intros [post Hp]; exists post;
        [simpl; by rewrite Hp | by injection Hp].
    + split; [done|]. intros [post Hp]. by injection Hp.
Qed.

Lemma contains_nil (sub : string) :
  PyStr.contains sub "" = String.prefix sub "" || false.
Proof. by destruct sub. Qed.

Lemma contains_cons (sub : string) (c : ascii) (s : string) :
  PyStr.contains sub (String c s)
  = String.prefix sub (String c s) || PyStr.contains sub s.
Proof. by destruct sub. Qed.

Lemma contains_spec (sub s : string) :
  PyStr.contains sub s = true ↔ substring_of sub s.
Proof.
  unfold substring_of. induction s as [|c s IH].
  - rewrite contains_nil, orb_false_r, prefix_spec. split.
    + intros [post Hp]. by exists "", post.
    + intros (pre & post & Hp). exists post.
      destruct pre; [done | discriminate Hp].
  - rewrite contains_cons, orb_true_iff, prefix_spec, IH. split.
    + intros [[post Hp]|(pre & post & Hp)].
      * by exists "", post.
      * exists (String c pre), post. simpl. by rewrite Hp.
    + intros (pre & post & Hp). destruct pre as [|c' pre].
      * left. by exists post.
      * right. exists pre, post. simpl in Hp. by injection Hp.
Qed.

Lemma lower_char_idem (c : ascii) :
  PyStr.lower_char (PyStr.lower_char c) = PyStr.lower_char c.
Proof.
  destruct c as [b0 b1 b2 b3 b4 b5 b6 b7].
  destruct b0, b1, b2, b3, b4, b5, b6, b7; reflexivity.
Qed.

Lemma lower_idem (s : string) : PyStr.lower (PyStr.lower s) = PyStr.lower s.
Proof.
  induction s as [|c s IH]; simpl; [done|]. by rewrite lower_char_idem, IH.
Qed.

Lemma flat_map_nil {A B : Type} (f : A → list B) (l : list A) :
  (∀ x, x ∈ l → f x = []) → flat_map f l = [].
Proof.
  induction l as [|x l IH]; intros Hf; [done|]. simpl.
  rewrite (Hf x) by (apply elem_of_cons; auto).
  apply IH. intros y Hy. apply Hf, elem_of_cons; auto.
Qed.

Lemma node_matches_spec query_terms node_label :
  node_matches query_terms node_label = true ↔
  ∃ term, term ∈ query_terms
    ∧ (substring_of term node_label ∨ substring_of node_label term).
Proof.
  unfold node_matches. rewrite orb_true_iff, !existsb_exists. split.
  - intros [(t & Ht & Hc)|(t & Ht & Hc)]; exists t; rewrite <- !contains_spec;
      (split; [by apply list_elem_of_In | auto]).
  - intros (t & Ht & [Hc|Hc]); [left|right]; exists t; rewrite contains_spec;
      (split; [by apply list_elem_of_In | done]).
Qed.

Lemma find_relevant_nodes_elem G query_terms recording_id r :
  r ∈ find_relevant_nodes G query_terms recording_id ↔
  ∃ nd, nd ∈ nx.nodes G
    ∧ r = relevant_entry nd
    ∧ (truthy recording_id = true → Some (Node.recording_id nd.2) = recording_id)
    ∧ node_matches query_terms (PyStr.lower (Node.label nd.2)) = true.
Proof.
  unfold find_relevant_nodes. rewrite list_elem_of_In, in_flat_map. split.
  - intros ([n d] & Hnd & Hr). exists (n, d). apply list_elem_of_In in Hnd.
    unfold scan_node in Hr.
    destruct (truthy recording_id) eqn:Htr; simpl in Hr.
    + unfold rid_differs in Hr.
      destruct (bool_decide (Some (Node.recording_id d) = recording_id)) eqn:Hrid;
        simpl in Hr; [|done].
      apply bool_decide_eq_true in Hrid.
      destruct (node_matches query_terms (PyStr.lower (Node.label d))) eqn:Hm;
        simpl in Hr; [|done].
      destruct Hr as [<-|[]]. done.
    + destruct (node_matches query_terms (PyStr.lower (Node.label d))) eqn:Hm;
        simpl in Hr; [|done].
      destruct Hr as [<-|[]]. done.
  - intros ([n d] & Hnd & -> & Hscope & Hm). exists (n, d).
    split; [by apply list_elem_of_In|]. unfold scan_node. simpl in *.
    destruct (truthy recording_id); simpl.
    + unfold rid_differs. rewrite bool_decide_eq_true_2 by auto. simpl.
      rewrite Hm. by left.
    + rewrite Hm. by left.
Qed.

(** X16: a store node is relevant to a query exactly when it is in the
    recording scope (any recording when the id is absent or 0) and some
    query term is a contiguous part of its lower-cased label, or the
    lower-cased label a contiguous part of some term; the entry copies the
    node's id, label, type and confidence. *)
Theorem relevant_nodes_characterised (G : nx.DiGraph) (query_terms : list string)
    (recording_id : option Z) (r : RelevantNode.t) :
  r ∈ find_relevant_nodes G query_terms recording_id ↔
  ∃ nd, nd ∈ nx.nodes G
    ∧ r = relevant_entry nd
    ∧ (∀ z, recording_id = Some z → z ≠ 0%Z → Node.recording_id nd.2 = z)
    ∧ ∃ term, term ∈ query_terms
        ∧ (substring_of term (PyStr.lower (Node.label nd.2))
           ∨ substring_of (PyStr.lower (Node.label nd.2)) term).
Proof.
  rewrite find_relevant_nodes_elem. split.
  - intros (nd & Hnd & Hr & Hscope & Hm). exists nd. split_and!; try done.
    + intros z -> Hz. simpl in Hscope.
      rewrite (proj2 (Z.eqb_neq z 0) Hz) in Hscope. by injection (Hscope eq_refl).
    + by apply node_matches_spec.
  - intros (nd & Hnd & Hr & Hscope & Hm). exists nd. split_and!; try done.
    + destruct recording_id as [z|]; simpl; [|done].
      destruct (Z.eqb_spec z 0); [done|]. intros _. by rewrite (Hscope z).
    + by apply node_matches_spec.
Qed.

(** X17: a query whose text yields no entity returns no relevant node, no
    path and no related concept, only the counts of the store. *)
Theorem query_without_entities (C : Collaborators) (G : nx.DiGraph)
    (query : string) (recording_id : option Z)
    (Hnone : _extract_entities C query = Returned []) :
  query_knowledge_graph C G query recording_id
  = {| QueryResult.relevant_nodes := [];
       QueryResult.paths := [];
       QueryResult.related_concepts := [];
       QueryResult.graph_stats :=
         Some (nx.number_of_nodes G, nx.number_of_edges G) |}.
Proof.
  unfold query_knowledge_graph, query_body. rewrite Hnone. simpl.
  assert (Hrel : find_relevant_nodes G [] recording_id = []).
  { apply flat_map_nil. intros [n d] _. unfold scan_node. simpl.
    by destruct (truthy recording_id && _). }
  assert (Hcon : _get_related_concepts G [] = []).
  { apply flat_map_nil. by intros [n d] _. }
  by rewrite Hrel, Hcon.
Qed.

Lemma query_without_entities_witness :
  let C := {| nlp := None; chat_entities := λ _, Raised |} in
  _extract_entities C "" = Returned []
  ∧ query_knowledge_graph C ada_store "" (Some 1%Z)
    = QueryResult.mk [] [] [] (Some (2%nat, 1%nat)).
Proof.
  intros C. split; [reflexivity|].
  by apply (query_without_entities C ada_store "" (Some 1%Z)).
Defined.

Lemma related_concepts_elem G query_terms c :
  c ∈ _get_related_concepts G query_terms ↔
  ∃ nd, nd ∈ nx.nodes G
    ∧ c = concept_entry nd
    ∧ ∃ term, term ∈ query_terms
        ∧ nx.has_node term G = true
        ∧ (nx.has_edge term nd.1 G = true ∨ nx.has_edge nd.1 term G = true).
Proof.
  unfold _get_related_concepts. rewrite list_elem_of_In, in_flat_map. split.
  - intros ([n d] & Hnd & Hc). exists (n, d). apply list_elem_of_In in Hnd.
    destruct (existsb _ query_terms) eqn:Hex; simpl in Hc; [|done].
    destruct Hc as [<-|[]]. split_and!; [done | done |].
    apply existsb_exists in Hex as (t & Ht & Hcond).
    apply andb_true_iff in Hcond as [Hnode Hedge]. apply orb_true_iff in Hedge.
    exists t. by rewrite list_elem_of_In.
  - intros ([n d] & Hnd & -> & t & Ht & Hnode & Hedge). exists (n, d).
    split; [by apply list_elem_of_In|].
    assert (Hex : existsb
      (λ term, nx.has_node term G
               && (nx.has_edge term n G || nx.has_edge n term G)) query_terms = true).
    { apply existsb_exists. exists t. split; [by apply list_elem_of_In|].
      simpl in Hedge. rewrite Hnode. simpl. by apply orb_true_iff. }
    rewrite Hex. by left.
Qed.

(** X18: a related concept is the label and type of a store node joined by
    an edge, in either direction, to a query term that is itself the id of
    a store node; each store node contributes at most once. *)
Theorem related_concepts_characterised (G : nx.DiGraph) (query_terms : list string)
    (c : Concept.t) :
  (c ∈ _get_related_concepts G query_terms ↔
   ∃ nd, nd ∈ nx.nodes G
     ∧ c = concept_entry nd
     ∧ ∃ term, term ∈ query_terms
         ∧ nx.has_node term G = true
         ∧ (nx.has_edge term nd.1 G = true ∨ nx.has_edge nd.1 term G = true))
  ∧ (length (_get_related_concepts G query_terms) ≤ nx.number_of_nodes G)%nat.
Proof.
  split; [apply related_concepts_elem|].
  unfold _get_related_concepts, nx.number_of_nodes, nx.nodes.
  induction (nx._node G) as [|[n d] l IH]; simpl; [lia|].
  rewrite length_app. destruct (existsb _ query_terms); simpl; lia.
Qed.

(** X19: query terms are lower-cased before they are looked up as node
    ids, so a store in which every node id contains an upper-case letter
    never yields a related concept. *)
Theorem related_concepts_need_lower_case_ids (C : Collaborators) (G : nx.DiGraph)
    (query : string) (recording_id : option Z)
    (Hupper : ∀ nd, nd ∈ nx.nodes G → PyStr.lower nd.1 ≠ nd.1) :
  QueryResult.related_concepts (query_knowledge_graph C G query recording_id) = [].
Proof.
  unfold query_knowledge_graph, query_body.
  destruct (_extract_entities C query) as [query_entities|]; [|done]. simpl.
  destruct (_get_related_concepts G _) as [|c rest] eqn:Hres; [done|]. exfalso.
  assert (Hc : c ∈ _get_related_concepts G
                 ((λ e, PyStr.lower (Entity.text e)) <$> query_entities))
    by (rewrite Hres; apply elem_of_cons; auto).
  apply related_concepts_elem in Hc as (_ & _ & _ & t & Ht & Hnode & _).
  apply list_elem_of_fmap in Ht as (e & -> & _).
  apply dict_has_true in Hnode. unfold dict_keys in Hnode.
  apply list_elem_of_fmap in Hnode as (nd & Hid & Hnd).
  apply (Hupper nd Hnd). rewrite <- Hid. apply lower_idem.
Qed.

Lemma related_concepts_need_lower_case_ids_witness :
  let C := {| nlp := None;
              chat_entities := λ _, Returned [ChatEntity.mk "Ada" "PERSON" None] |} in
  (∀ nd, nd ∈ nx.nodes ada_store → PyStr.lower nd.1 ≠ nd.1)
  ∧ QueryResult.related_concepts (query_knowledge_graph C ada_store "Ada" None) = [].
Proof.
  intros C.
  assert (Hupper : ∀ nd, nd ∈ nx.nodes ada_store → PyStr.lower nd.1 ≠ nd.1).
  { intros nd Hnd. apply elem_of_cons in Hnd as [->|Hnd]; [discriminate|].
    apply list_elem_of_singleton in Hnd as ->. discriminate. }
  split; [exact Hupper|].
  by apply (related_concepts_need_lower_case_ids C ada_store "Ada" None).
Defined.

(** X20: every path a query returns is a shortest directed walk from a
    matched node to a matched node that comes later in the scan: no walk
    between the two has fewer nodes, and no path is sought from the later
    node back to the earlier one. *)
Theorem query_paths_are_shortest_walks (C : Collaborators) (G : nx.DiGraph)
    (query : string) (recording_id : option Z) (query_entities : list Entity.t)
    (p : list string)
    (Hextract : _extract_entities C query = Returned query_entities)
    (Hp : p ∈ QueryResult.paths (query_knowledge_graph C G query recording_id)) :
  let matched :=
    find_relevant_nodes G ((λ e, PyStr.lower (Entity.text e)) <$> query_entities)
      recording_id in
  ∃ i j a b,
    (i < j)%nat ∧ matched !! i = Some a ∧ matched !! j = Some b
    ∧ walk G (RelevantNode.id a) (RelevantNode.id b) p
    ∧ ∀ w, walk G (RelevantNode.id a) (RelevantNode.id b) w →
        (length p ≤ length w)%nat.
Proof.
  intros matched. unfold query_knowledge_graph, query_body in Hp.
  rewrite Hextract in Hp. simpl in Hp. fold matched in Hp.
  apply subseteq_take in Hp. rewrite find_paths_pairs in Hp.
  apply list_elem_of_In, in_flat_map in Hp as ([a b] & Hab & Hp).
  apply list_elem_of_In, pairs_in_order_lookup in Hab as (i & j & Hij & Hi & Hj).
  unfold path_of_pair in Hp. simpl in Hp.
  destruct (nx.shortest_path G (RelevantNode.id a) (RelevantNode.id b)) as [p'|] eqn:Hsp;
    simpl in Hp; [|done].
  destruct Hp as [->|[]].
  exists i, j, a, b. split_and!; try done.
  - by apply shortest_path_sound.
  - intros w. by apply shortest_path_minimal.
Qed.

Lemma query_paths_are_shortest_walks_witness :
  let C := {| nlp := None;
              chat_entities := λ _, Returned [ChatEntity.mk "a" "CONCEPT" None] |} in
  _extract_entities C "a" = Returned [Entity.mk "a" "CONCEPT" None (1 # 2) "openai"]
  ∧ ["Ada"; "Graph"] ∈ QueryResult.paths (query_knowledge_graph C ada_store "a" None)
  ∧ walk ada_store "Ada" "Graph" ["Ada"; "Graph"].
Proof.
  intros C.
  assert (Hp : ["Ada"; "Graph"]
               ∈ QueryResult.paths (query_knowledge_graph C ada_store "a" None)).
  { apply list_elem_of_singleton. reflexivity. }
  split; [reflexivity|]. split; [exact Hp|].
  destruct (query_paths_are_shortest_walks C ada_store "a" None
              [Entity.mk "a" "CONCEPT" None (1 # 2) "openai"] ["Ada"; "Graph"]
              eq_refl Hp) as (i & j & a & b & Hij & Hi & Hj & Hwalk & _).
  destruct i as [|[|i]]; destruct j as [|[|j]]; simpl in Hi, Hj; try lia; try done.
  injection Hi as <-. injection Hj as <-. exact Hwalk.
Defined.

(** ** The summary reporter: histograms and totals *)

Lemma counter_fold_get (l : list string) (m : list (string * nat)) (t : string) :
  dict_get t (fold_left counter_step l m)
  = if decide (occurrences t l = 0%nat) then dict_get t m
    else Some (occurrences t l + default 0%nat (dict_get t m))%nat.
Proof.
  revert m. induction l as [|x l IH]; intros m; [done|].
  simpl. rewrite IH. unfold occurrences, counter_step.
  rewrite filter_cons, dict_get_set.
  destruct (decide (x = t)) as [->|Hne].
  - rewrite !(decide_True (P := t = t)) by done. simpl.
    destruct (decide (length (filter (λ y, y = t) l) = 0%nat)) as [H0|H0].
    + rewrite H0. done.
    + simpl. f_equal. lia.
  - rewrite (decide_False (P := t = x)) by done.
    destruct (decide (length (filter (λ y, y = t) l) = 0%nat)); done.
Qed.

Lemma counter_get (l : list string) (t : string) :
  dict_get t (counter l)
  = if decide (occurrences t l = 0%nat) then None else Some (occurrences t l).
Proof.
  unfold counter. fold counter_step. rewrite counter_fold_get. simpl.
  case_decide; [done|]. f_equal. lia.
Qed.

Lemma counter_step_sum (m : list (string * nat)) (x : string) :
  sum_list (dict_values (counter_step m x)) = S (sum_list (dict_values m)).
Proof.
  unfold counter_step, dict_values. induction m as [|[k v] m IH]; csimpl; [done|].
  destruct (decide (x = k)) as [->|Hne]; csimpl; [done|].
  rewrite IH. lia.
Qed.

Lemma counter_sum (l : list string) :
  sum_list (dict_values (counter l)) = length l.
Proof.
  unfold counter. fold counter_step.
  assert (H : ∀ m, sum_list (dict_values (fold_left counter_step l m))
                   = (length l + sum_list (dict_values m))%nat).
  { induction l as [|x l IH]; intros m; [done|]. simpl.
    rewrite IH, counter_step_sum. lia. }
  rewrite H. simpl. lia.
Qed.

Lemma counter_keys_NoDup (l : list string) : NoDup (dict_keys (counter l)).
Proof.
  unfold counter. fold counter_step.
  assert (H : ∀ m, NoDup (dict_keys m) →
                   NoDup (dict_keys (fold_left counter_step l m))).
  { induction l as [|x l IH]; intros m Hm; [done|]. simpl.
    apply IH. by apply dict_keys_set_NoDup. }
  apply H, NoDup_nil_2.
Qed.

Lemma summary_edges_spec G recording_id :
  (if truthy recording_id
   then filter (λ e, Some (Edge.recording_id e.2) = recording_id) (nx.edges G)
   else nx.edges G)
  = summary_edges G recording_id.
Proof.
  unfold summary_edges, truthy. destruct recording_id as [z|]; [|done].
  destruct (decide (z = 0%Z)) as [->|Hz]; [done|].
  rewrite (proj2 (Z.eqb_neq z 0) Hz). simpl.
  apply list_filter_iff. intros e. split; [by intros [= ->] | by intros ->].
Qed.

(** X21: the two histograms of a summary count exactly: a type is listed
    once, with the number of nodes (edges) of the scope that carry it, and
    is absent when there is none; the counts add up to the totals. *)
Theorem summary_histograms_exact (G : nx.DiGraph) (recording_id : option Z)
    (t : string) :
  let s := get_graph_summary G recording_id in
  let node_types := (λ nd, Node.type nd.2) <$> summary_nodes G recording_id in
  let edge_types := (λ e, Edge.relationship e.2) <$> summary_edges G recording_id in
  dict_get t (Summary.entity_types s)
  = (if decide (occurrences t node_types = 0%nat) then None
     else Some (occurrences t node_types))
  ∧ dict_get t (Summary.relationship_types s)
    = (if decide (occurrences t edge_types = 0%nat) then None
       else Some (occurrences t edge_types))
  ∧ NoDup (dict_keys (Summary.entity_types s))
  ∧ NoDup (dict_keys (Summary.relationship_types s))
  ∧ sum_list (dict_values (Summary.entity_types s)) = Summary.total_entities s
  ∧ sum_list (dict_values (Summary.relationship_types s))
    = Summary.total_relationships s.
Proof.
  unfold get_graph_summary. simpl.
  rewrite summary_nodes_spec, summary_edges_spec.
  split_and!.
  - apply counter_get.
  - apply counter_get.
  - apply counter_keys_NoDup.
  - apply counter_keys_NoDup.
  - by rewrite counter_sum, length_fmap.
  - by rewrite counter_sum, length_fmap.
Qed.

(** X22: a summary scoped to a non-zero recording id covers one recording
    when the store has a node of that recording, and none otherwise. *)
Theorem scoped_summary_covers_one (G : nx.DiGraph) (z : Z) (Hz : z ≠ 0%Z) :
  let s := get_graph_summary G (Some z) in
  Summary.recordings_covered s
  = if decide (Summary.total_entities s = 0%nat) then 0%nat else 1%nat.
Proof.
  unfold get_graph_summary.
  cbv zeta. cbn [Summary.recordings_covered Summary.total_entities].
  rewrite (summary_nodes_spec G (Some z)). unfold summary_nodes.
  rewrite decide_False by done.
  set (nodes := filter (λ nd, Node.recording_id nd.2 = z) (nx.nodes G)).
  assert (Hall : ∀ nd, nd ∈ nodes → Node.recording_id nd.2 = z).
  { intros nd Hnd. by apply list_elem_of_filter in Hnd as [? _]. }
  destruct nodes as [|nd nodes]; [done|].
  rewrite decide_False by done.
  assert (Hset : (list_to_set (filter (λ r, r ≠ 0%Z)
                    ((λ nd, Node.recording_id nd.2) <$> nd :: nodes)) : gset Z)
                 = {[z]}).
  { apply set_eq. intros x.
    rewrite elem_of_list_to_set, list_elem_of_filter, list_elem_of_fmap,
      elem_of_singleton.
    split.
    - intros [_ (y & -> & Hy)]. by apply Hall.
    - intros ->. split; [done|]. exists nd. split; [|apply elem_of_cons; auto].
      symmetry. apply Hall, elem_of_cons; auto. }
  rewrite Hset. apply size_singleton.
Qed.

Lemma scoped_summary_covers_one_witness :
  (1 ≠ 0)%Z
  ∧ Summary.recordings_covered (get_graph_summary ada_store (Some 1%Z)) = 1%nat.
Proof.
  split; [discriminate|].
  apply (scoped_summary_covers_one ada_store 1). discriminate.
Defined.

(** X23: on every store the service can hold, the totals of the unscoped
    summary are the node and edge counts that a query reports in
    graph_stats. *)
Theorem summary_totals_match_graph_stats (G : nx.DiGraph) (Hreach : reachable G) :
  Summary.total_entities (get_graph_summary G None) = nx.number_of_nodes G
  ∧ Summary.total_relationships (get_graph_summary G None) = nx.number_of_edges G.
Proof.
  unfold get_graph_summary. simpl. split; [done|].
  by apply reachable_edges_length.
Qed.

Lemma summary_totals_match_graph_stats_witness :
  reachable ada_store
  ∧ Summary.total_entities (get_graph_summary ada_store None)
    = nx.number_of_nodes ada_store
  ∧ Summary.total_relationships (get_graph_summary ada_store None)
    = nx.number_of_edges ada_store.
Proof.
  assert (Hreach : reachable ada_store) by (apply reachable_merge, reachable_init).
  split; [exact Hreach|].
  by apply summary_totals_match_graph_stats.
Defined.

(** ** The deduplicators on arbitrary lists *)

Lemma dict_get_elem_NoDup {K V : Type} `{EqDecision K} (m : list (K * V)) k v :
  NoDup (dict_keys m) → (k, v) ∈ m → dict_get k m = Some v.
Proof.
  unfold dict_keys. induction m as [|[k0 v0] m IH]; csimpl; intros Hnd Hin.
  - by apply elem_of_nil in Hin.
  - apply NoDup_cons in Hnd as [Hk0 Hnd].
    apply elem_of_cons in Hin as [[= -> ->]|Hin].
    + by rewrite decide_True.
    + destruct (decide (k = k0)) as [->|Hne]; [|by apply IH].
      exfalso. apply Hk0. apply list_elem_of_fmap. by exists (k0, v).
Qed.

(** An entity of the output is the record filed under its own key. *)
Lemma dedup_entities_elem X r :
  r ∈ _deduplicate_entities X ↔ dict_get (entity_key r) (entity_map_of X) = Some r.
Proof.
  destruct (entity_map_of_invariant X) as [Hkeyed Hnd].
  unfold _deduplicate_entities, dict_values. split.
  - intros Hr. apply list_elem_of_fmap in Hr as ([k e] & -> & Hin). simpl.
    unfold keyed in Hkeyed. rewrite Forall_forall in Hkeyed.
    pose proof (Hkeyed _ Hin) as Hk. simpl in Hk. subst k.
    by apply dict_get_elem_NoDup.
  - intros Hget. apply dict_get_Some_elem in Hget.
    apply list_elem_of_fmap. by exists (entity_key r, r).
Qed.

Lemma entity_map_of_length X : (length (entity_map_of X) ≤ length X)%nat.
Proof.
  induction X as [|x X IH] using rev_ind; [done|].
  rewrite entity_map_of_snoc, length_app. simpl. unfold dedup_entity_step.
  destruct (dict_get (entity_key x) (entity_map_of X)) as [ex|].
  - pose proof (dict_set_length_le (entity_map_of X) (entity_key x) (merge_entity ex x)).
    lia.
  - pose proof (dict_set_length_le (entity_map_of X) (entity_key x) x). lia.
Qed.

Lemma entity_map_of_keys_from_input X k r :
  dict_get k (entity_map_of X) = Some r → k ∈ entity_key <$> X.
Proof.
  intros Hget. destruct (dedup_confidence_is_maximum X k r Hget)
    as [_ (e & He & Hk & _)].
  rewrite <- Hk. by apply list_elem_of_fmap_2.
Qed.

(** X24: the deduplicated entities have pairwise distinct identity keys,
    exactly the keys of the input, and are no more than the input. *)
Theorem dedup_entities_keys (X : list Entity.t) :
  NoDup (entity_key <$> _deduplicate_entities X)
  ∧ (∀ k, k ∈ entity_key <$> _deduplicate_entities X ↔ k ∈ entity_key <$> X)
  ∧ (length (_deduplicate_entities X) ≤ length X)%nat.
Proof.
  destruct (entity_map_of_invariant X) as [Hkeyed Hnd].
  assert (Hkeys : entity_key <$> _deduplicate_entities X = dict_keys (entity_map_of X)).
  { unfold _deduplicate_entities, dict_values, dict_keys.
    rewrite <- list_fmap_compose. apply list_fmap_ext.
    unfold keyed in Hkeyed. rewrite Forall_lookup in Hkeyed.
    intros i p Hp. simpl. symmetry. by apply (Hkeyed i). }
  split_and!.
  - by rewrite Hkeys.
  - intros k. split.
    + intros Hk. apply list_elem_of_fmap in Hk as (r & -> & Hr).
      apply dedup_entities_elem in Hr. by apply entity_map_of_keys_from_input in Hr.
    + intros Hk. apply list_elem_of_fmap in Hk as (e & -> & He).
      destruct (entity_map_of_covers X e He) as [r Hr].
      rewrite Hkeys. apply dict_has_true. unfold dict_has. rewrite Hr.
      by apply bool_decide_eq_true_2.
  - unfold _deduplicate_entities, dict_values. rewrite length_fmap.
    apply entity_map_of_length.
Qed.

Lemma entity_map_of_first_seen X k r :
  dict_get k (entity_map_of X) = Some r →
  ∃ before e after,
    X = before ++ e :: after
    ∧ entity_key e = k
    ∧ (k ∉ entity_key <$> before)
    ∧ Entity.text r = Entity.text e
    ∧ Entity.span r = Entity.span e
    ∧ Entity.source r = Entity.source e.
Proof.
  revert r. induction X as [|x X IH] using rev_ind; intros r Hget; [done|].
  rewrite entity_map_of_snoc, dedup_entity_step_get in Hget.
  destruct (decide (k = entity_key x)) as [->|Hne].
  - destruct (dict_get (entity_key x) (entity_map_of X)) as [existing|] eqn:Hex.
    + injection Hget as <-.
      destruct (IH existing eq_refl) as (b & e & a & -> & Hk & Hb & Ht & Hs & Hsrc).
      exists b, e, (a ++ [x]). rewrite <- app_assoc. done.
    + injection Hget as <-. exists X, x, []. split_and!; try done.
      intros Hin. apply list_elem_of_fmap in Hin as (e & Hk & He).
      destruct (entity_map_of_covers X e He) as [v Hv]. congruence.
  - destruct (IH r Hget) as (b & e & a & -> & Hk & Hb & Ht & Hs & Hsrc).
    exists b, e, (a ++ [x]). rewrite <- app_assoc. done.
Qed.

(** X25: the first entity seen for a key establishes the record: every
    deduplicated entity has the text, the span and the source of the first
    input entity with its key; later entities change only confidence and
    label. *)
Theorem dedup_entities_first_seen (X : list Entity.t) (r : Entity.t)
    (Hr : r ∈ _deduplicate_entities X) :
  ∃ before e after,
    X = before ++ e :: after
    ∧ entity_key e = entity_key r
    ∧ (entity_key r ∉ entity_key <$> before)
    ∧ Entity.text r = Entity.text e
    ∧ Entity.span r = Entity.span e
    ∧ Entity.source r = Entity.source e.
Proof. apply dedup_entities_elem in Hr. by apply entity_map_of_first_seen. Qed.

Lemma dedup_entities_first_seen_witness :
  let X := [Entity.mk "Foo " "ORG" (Some (0, 4)%Z) (3 # 10) "spacy";
            Entity.mk "foo" "CONCEPT" None (9 # 10) "openai"] in
  let r := Entity.mk "Foo " "CONCEPT" (Some (0, 4)%Z) (9 # 10) "spacy" in
  r ∈ _deduplicate_entities X
  ∧ ∃ before e after,
      X = before ++ e :: after
      ∧ entity_key e = entity_key r
      ∧ (entity_key r ∉ entity_key <$> before)
      ∧ Entity.text r = Entity.text e
      ∧ Entity.span r = Entity.span e
      ∧ Entity.source r = Entity.source e.
Proof.
  intros X r.
  assert (Hr : r ∈ _deduplicate_entities X) by (apply list_elem_of_singleton; reflexivity).
  split; [exact Hr | exact (dedup_entities_first_seen X r Hr)].
Defined.

Lemma final_label_snoc (L : list Entity.t) (x : Entity.t) :
  final_label (L ++ [x])
  = if decide (Entity.source x = "openai") then Some (Entity.label x)
    else match final_label L with
         | Some l => Some l
         | None => Some (Entity.label x)
         end.
Proof.
  unfold final_label. rewrite filter_app, filter_cons, filter_nil.
  destruct (decide (Entity.source x = "openai")) as [Ho|Ho].
  - by rewrite last_snoc.
  - rewrite app_nil_r.
    destruct (last (filter (λ e, Entity.source e = "openai") L)) as [e|] eqn:Hlast;
      [done|].
    destruct L as [|e0 L]; done.
Qed.

Lemma entity_map_of_label X k :
  Entity.label <$> dict_get k (entity_map_of X)
  = final_label (filter (λ e, entity_key e = k) X).
Proof.
  induction X as [|x X IH] using rev_ind; [done|].
  rewrite entity_map_of_snoc, dedup_entity_step_get, filter_app, filter_cons, filter_nil.
  destruct (decide (entity_key x = k)) as [<-|Hne].
  - rewrite decide_True by done. rewrite final_label_snoc, <- IH.
    destruct (dict_get (entity_key x) (entity_map_of X)) as [existing|]; simpl.
    + by destruct (decide (Entity.source x = "openai")).
    + by destruct (decide (Entity.source x = "openai")).
  - rewrite decide_False by done. by rewrite app_nil_r.
Qed.

(** X26: on any list, the label of a deduplicated entity is the label of
    the last "openai" entity with its key, and the label of the first
    entity with its key when no "openai" entity has it. *)
Theorem dedup_entities_label (X : list Entity.t) (r : Entity.t)
    (Hr : r ∈ _deduplicate_entities X) :
  Some (Entity.label r)
  = final_label (filter (λ e, entity_key e = entity_key r) X).
Proof.
  apply dedup_entities_elem in Hr. rewrite <- entity_map_of_label. by rewrite Hr.
Qed.

Lemma dedup_entities_label_witness :
  let X := [Entity.mk "Foo" "ORG" None 1 "spacy";
            Entity.mk "foo" "CONCEPT" None (1 # 2) "openai";
            Entity.mk "FOO" "PRODUCT" None (1 # 2) "openai";
            Entity.mk " foo" "PERSON" None 1 "spacy"] in
  let r := Entity.mk "Foo" "PRODUCT" None 1 "spacy" in
  r ∈ _deduplicate_entities X
  ∧ Some (Entity.label r)
    = final_label (filter (λ e, entity_key e = entity_key r) X).
Proof.
  intros X r.
  assert (Hr : r ∈ _deduplicate_entities X) by (apply list_elem_of_singleton; reflexivity).
  split; [exact Hr | exact (dedup_entities_label X r Hr)].
Defined.

(** X27: on any list, the confidence of a deduplicated entity is the
    greatest confidence among the input entities with its key: it bounds
    them all and is the confidence of one of them. *)
Theorem dedup_entities_confidence (X : list Entity.t) (r : Entity.t)
    (Hr : r ∈ _deduplicate_entities X) :
  (∀ e, e ∈ X → entity_key e = entity_key r →
     (Entity.confidence e <= Entity.confidence r)%Q)
  ∧ ∃ e, e ∈ X ∧ entity_key e = entity_key r
         ∧ Entity.confidence e = Entity.confidence r.
Proof. apply dedup_entities_elem in Hr. by apply dedup_confidence_is_maximum. Qed.

Lemma dedup_entities_confidence_witness :
  let X := [Entity.mk "Foo" "ORG" None (3 # 10) "spacy";
            Entity.mk "foo" "CONCEPT" None (9 # 10) "openai";
            Entity.mk "FOO" "PRODUCT" None (1 # 2) "openai"] in
  let r := Entity.mk "Foo" "PRODUCT" None (9 # 10) "spacy" in
  r ∈ _deduplicate_entities X
  ∧ (∀ e, e ∈ X → entity_key e = entity_key r →
       (Entity.confidence e <= Entity.confidence r)%Q)
  ∧ ∃ e, e ∈ X ∧ entity_key e = entity_key r
         ∧ Entity.confidence e = Entity.confidence r.
Proof.
  intros X r.
  assert (Hr : r ∈ _deduplicate_entities X) by (apply list_elem_of_singleton; reflexivity).
  split; [exact Hr | exact (dedup_entities_confidence X r Hr)].
Defined.

Lemma rel_fold_snoc X x :
  _deduplicate_relationships (X ++ [x])
  = if decide (rel_key x ∈ rel_key <$> _deduplicate_relationships X)
    then _deduplicate_relationships X
    else _deduplicate_relationships X ++ [x].
Proof.
  unfold _deduplicate_relationships. rewrite fold_left_app. simpl.
  pose proof (rel_fold_inv X (∅, []) rel_inv_init) as [Hseen _].
  destruct (fold_left dedup_rel_step X (∅, [])) as [seen acc]. simpl in *.
  destruct (decide (rel_key x ∈ seen)) as [Hin|Hnin]; simpl.
  - rewrite decide_True by (by apply Hseen). done.
  - rewrite decide_False; [done|]. intros Hin. by apply Hnin, Hseen.
Qed.

(** X28: first occurrence wins among relationships: every relationship of
    the result is the first one of the input with its key, kept whole, so
    the confidence and context of later duplicates are discarded. *)
Theorem dedup_relationships_first_wins (X : list Rel.t) (r : Rel.t)
    (Hr : r ∈ _deduplicate_relationships X) :
  ∃ before after, X = before ++ r :: after ∧ (rel_key r ∉ rel_key <$> before).
Proof.
  revert Hr. induction X as [|x X IH] using rev_ind; intros Hr.
  - by apply elem_of_nil in Hr.
  - rewrite rel_fold_snoc in Hr.
    destruct (decide (rel_key x ∈ rel_key <$> _deduplicate_relationships X)) as [Hin|Hnin].
    + destruct (IH Hr) as (b & a & -> & Hb). exists b, (a ++ [x]).
      by rewrite <- app_assoc.
    + apply elem_of_app in Hr as [Hr|Hr].
      * destruct (IH Hr) as (b & a & -> & Hb). exists b, (a ++ [x]).
        by rewrite <- app_assoc.
      * apply list_elem_of_singleton in Hr as ->. exists X, []. split; [done|].
        intros Hin. apply Hnin.
        apply list_elem_of_fmap in Hin as (y & Hk & Hy). rewrite Hk.
        by apply dedup_rel_covers.
Qed.

Lemma dedup_relationships_first_wins_witness :
  let X := [Rel.mk "Ada" "Graph" "leads" (1 # 2) None;
            Rel.mk "ADA" "graph" "leads" (9 # 10) (Some "later")] in
  let r := Rel.mk "Ada" "Graph" "leads" (1 # 2) None in
  r ∈ _deduplicate_relationships X
  ∧ ∃ before after, X = before ++ r :: after ∧ (rel_key r ∉ rel_key <$> before).
Proof.
  intros X r.
  assert (Hr : r ∈ _deduplicate_relationships X)
    by (apply list_elem_of_singleton; reflexivity).
  split; [exact Hr | exact (dedup_relationships_first_wins X r Hr)].
Defined.

(** ** Merging the same fragment again *)

Section DictSetAll.
Context {K V : Type} `{EqDecision K}.
Implicit Types (m : list (K * V)) (kvs : list (K * V)).

Lemma dict_ext m1 m2 :
NoDup (dict_keys m1) → dict_keys m1 = dict_keys m2 →
(∀ k, dict_get k m1 = dict_get k m2) → m1 = m2.
Proof.
unfold dict_keys. revert m2.
induction m1 as [|[k1 v1] m1 IH]; intros [|[k2 v2] m2]; csimpl;
  intros Hnd Hkeys Hget; try done.
injection Hkeys as -> Hkeys. apply NoDup_cons in Hnd as [Hk2 Hnd].
pose proof (Hget k2) as Hk. simpl in Hk. rewrite !decide_True in Hk by done.
injection Hk as ->. f_equal. apply IH; [done | done |].
intros k. specialize (Hget k). simpl in Hget.
destruct (decide (k = k2)) as [->|Hne]; [|done].
rewrite (proj2 (dict_get_None m1 k2)) by done.
rewrite (proj2 (dict_get_None m2 k2)); [done|].
unfold dict_keys. by rewrite <- Hkeys.
Qed.

Lemma dict_set_all_snoc kvs kv m :
dict_set_all (kvs ++ [kv]) m = dict_set kv.1 kv.2 (dict_set_all kvs m).
Proof. unfold dict_set_all. by rewrite fold_left_app. Qed.

Lemma dict_set_all_get kvs m k :
dict_get k (dict_set_all kvs m)
= match dict_get k (reverse kvs) with
  | Some v => Some v
  | None => dict_get k m
  end.
Proof.
induction kvs as [|[k' v'] kvs IH] using rev_ind; [done|].
rewrite dict_set_all_snoc, reverse_snoc, dict_get_set. simpl.
destruct (decide (k = k')); [done | apply IH].
Qed.

Lemma dict_set_all_NoDup kvs m :
NoDup (dict_keys m) → NoDup (dict_keys (dict_set_all kvs m)).
Proof.
intros Hnd. induction kvs as [|kv kvs IH] using rev_ind; [done|].
rewrite dict_set_all_snoc. by apply dict_keys_set_NoDup.
Qed.

Lemma dict_set_all_keys_mono kvs m k :
k ∈ dict_keys m → k ∈ dict_keys (dict_set_all kvs m).
Proof.
intros Hk. induction kvs as [|kv kvs IH] using rev_ind; [done|].
rewrite dict_set_all_snoc. by apply dict_keys_set_mono.
Qed.

Lemma dict_set_all_keys_assigned kvs m kv :
kv ∈ kvs → kv.1 ∈ dict_keys (dict_set_all kvs m).
Proof.
induction kvs as [|x kvs IH] using rev_ind; intros Hin.
- by apply elem_of_nil in Hin.
- rewrite dict_set_all_snoc. apply dict_keys_set_elem.
  apply elem_of_app in Hin as [Hin|Hin]; [right; by apply IH|].
  apply list_elem_of_singleton in Hin as ->. by left.
Qed.

Lemma dict_set_all_keys_present kvs m :
(∀ kv, kv ∈ kvs → kv.1 ∈ dict_keys m) →
dict_keys (dict_set_all kvs m) = dict_keys m.
Proof.
induction kvs as [|x kvs IH] using rev_ind; intros Hpres; [done|].
rewrite dict_set_all_snoc, dict_keys_set_present.
- apply IH. intros kv Hkv. apply Hpres, elem_of_app. by left.
- rewrite IH.
  + apply Hpres, elem_of_app. right. by apply list_elem_of_singleton.
  + intros kv Hkv. apply Hpres, elem_of_app. by left.
Qed.

(** Running the same assignments a second time changes nothing. *)
Lemma dict_set_all_idem kvs m :
NoDup (dict_keys m) →
dict_set_all kvs (dict_set_all kvs m) = dict_set_all kvs m.
Proof.
intros Hnd. apply dict_ext.
- by apply dict_set_all_NoDup, dict_set_all_NoDup.
- apply dict_set_all_keys_present. intros kv Hkv.
  by apply dict_set_all_keys_assigned.
- intros k. rewrite !dict_set_all_get.
  by destruct (dict_get k (reverse kvs)).
Qed.
End DictSetAll.

Lemma fold_nodes_as_assignments rid nodes G :
  fold_left (add_fragment_node rid) nodes G
  = nx.mk (dict_set_all (node_assignment rid <$> nodes) (nx._node G)) (nx._adj G).
Proof.
  revert G. induction nodes as [|n nodes IH]; intros G; [by destruct G|].
  simpl. by rewrite IH.
Qed.

(** The edge loop assigns the edges that pass the guard, which only looks
    at the node dictionary. *)
Lemma fold_edges_as_assignments rid edges G :
  fold_left (add_fragment_edge rid) edges G
  = nx.mk (nx._node G)
      (dict_set_all
         (edge_assignment rid
            <$> filter (λ e, nx.has_node (FragEdge.source e) G
                             && nx.has_node (FragEdge.target e) G = true) edges)
         (nx._adj G)).
Proof.
  revert G. induction edges as [|e edges IH]; intros G; [by destruct G|].
  simpl. rewrite IH, filter_cons. rewrite add_fragment_edge_node.
  assert (Hguard : ∀ e', nx.has_node (FragEdge.source e') (add_fragment_edge rid G e)
                         && nx.has_node (FragEdge.target e') (add_fragment_edge rid G e)
                       = nx.has_node (FragEdge.source e') G
                         && nx.has_node (FragEdge.target e') G).
  { intros e'. unfold nx.has_node. by rewrite add_fragment_edge_node. }
  rewrite (list_filter_iff _
    (λ e0, nx.has_node (FragEdge.source e0) G && nx.has_node (FragEdge.target e0) G = true))
    by (intros e'; by rewrite Hguard).
  destruct (nx.has_node (FragEdge.source e) G && nx.has_node (FragEdge.target e) G)
    eqn:Hg.
  - rewrite decide_True by done. unfold add_fragment_edge. by rewrite Hg.
  - rewrite decide_False by done. unfold add_fragment_edge. by rewrite Hg.
Qed.

Lemma reachable_adj_NoDup G : reachable G → NoDup (dict_keys (nx._adj G)).
Proof.
  induction 1 as [|rid gd G _ IH]; [apply NoDup_nil_2|].
  unfold _add_to_networkx_graph. rewrite fold_edges_as_assignments. simpl.
  apply dict_set_all_NoDup. by rewrite fold_nodes_adj.
Qed.

(** X5: merging the same fragment under the same recording id a second
    time leaves the store exactly as the first merge left it. *)
Theorem merge_idempotent (recording_id : Z) (graph_data : GraphData.t)
    (G : nx.DiGraph) (Hreach : reachable G) :
  _add_to_networkx_graph recording_id graph_data
    (_add_to_networkx_graph recording_id graph_data G)
  = _add_to_networkx_graph recording_id graph_data G.
Proof.
  pose proof (reachable_NoDup G Hreach) as Hn.
  pose proof (reachable_adj_NoDup G Hreach) as He.
  unfold _add_to_networkx_graph.
  rewrite !fold_edges_as_assignments, !fold_nodes_as_assignments. simpl.
  rewrite (dict_set_all_idem _ (nx._node G) Hn).
  unfold nx.has_node. simpl.
  rewrite (dict_set_all_idem _ (nx._adj G) He). done.
Qed.

Lemma merge_idempotent_witness :
  let graph_data :=
    _build_graph_structure 2
      [Entity.mk "Ada" "ORG" None (1 # 2) "openai";
       Entity.mk "Budget" "CONCEPT" None 1 "spacy"]
      [Rel.mk "Budget" "Ada" "depends_on" (1 # 2) None;
       Rel.mk "Budget" "Zed" "leads" (1 # 2) None] ["One point"] in
  reachable ada_store
  ∧ _add_to_networkx_graph 2 graph_data (_add_to_networkx_graph 2 graph_data ada_store)
    = _add_to_networkx_graph 2 graph_data ada_store.
Proof.
  intros graph_data.
  assert (Hreach : reachable ada_store) by (apply reachable_merge, reachable_init).
  split; [exact Hreach|].
  by apply merge_idempotent.
Defined.

(** ** Entity extraction: how the two extractors combine *)

Lemma extract_entities_both C text pipeline spans items :
  nlp C = Some pipeline → pipeline text = Returned spans →
  chat_entities C (String.substring 0 2000 text) = Returned items →
  _extract_entities C text
  = Returned (_deduplicate_entities ((spacy_entity <$> spans) ++ (chat_entity <$> items))).
Proof.
  intros Hnlp Hp Hchat. unfold _extract_entities, _extract_entities_with_openai.
  by rewrite Hnlp, Hp, Hchat.
Qed.

Lemma filter_none {A : Type} (P : A → Prop) `{∀ x, Decision (P x)} (l : list A) :
  (∀ x, x ∈ l → ¬ P x) → filter P l = [].
Proof.
  induction l as [|x l IH]; intros Hno; [done|].
  rewrite filter_cons_False by (apply Hno, elem_of_cons; auto).
  apply IH. intros y Hy. apply Hno, elem_of_cons; auto.
Qed.

Lemma filter_openai_spacy (spans : list Span.t) (P : Entity.t → Prop)
    `{∀ e, Decision (P e)} :
  filter (λ e, Entity.source e = "openai") (filter P (spacy_entity <$> spans)) = [].
Proof.
  apply filter_none. intros e He Hsrc.
  apply list_elem_of_filter in He as [_ He].
  apply list_elem_of_fmap in He as (sp & -> & _). discriminate Hsrc.
Qed.

(** In a list cut in two ways, an element of the first part that no element
    before the second cut equals lies at the cut or after it. *)
Lemma first_in_prefix {A : Type} (S T b a : list A) (e x : A) :
  S ++ T = b ++ e :: a → x ∈ S → x ∉ b → e ∈ S.
Proof.
  intros HX Hx Hb.
  destruct (decide (length b < length S)%nat) as [Hlt|Hge].
  - assert (Hl : (S ++ T) !! length b = Some e)
      by (rewrite HX; apply list_lookup_middle; done).
    rewrite lookup_app_l in Hl by done. by apply list_elem_of_lookup_2 in Hl.
  - exfalso. apply Hb. apply list_elem_of_lookup in Hx as [i Hi].
    pose proof (lookup_lt_Some _ _ _ Hi) as Hlen.
    assert (Hl : (S ++ T) !! i = Some x) by (by rewrite lookup_app_l).
    rewrite HX, lookup_app_l in Hl by lia. by apply list_elem_of_lookup_2 in Hl.
Qed.

Lemma filter_openai_chat (items : list ChatEntity.t) (P : Entity.t → Prop)
    `{∀ e, Decision (P e)} :
  filter (λ e, Entity.source e = "openai") (filter P (chat_entity <$> items))
  = filter P (chat_entity <$> items).
Proof.
  induction items as [|it items IH]; [done|].
  rewrite fmap_cons, (filter_cons P). destruct (decide (P (chat_entity it))).
  - rewrite filter_cons_True by done. by rewrite IH.
  - apply IH.
Qed.

(** X29: when both extractors answer, an entity that spaCy found keeps
    spaCy's text and span, has source "spacy" and a confidence of at least
    1.0; an entity only the chat model found has source "openai"; and the
    label of any entity the chat model named is the type the chat model
    gave it last. *)
Theorem extraction_combines_sources (C : Collaborators) (text : string)
    (pipeline : string → Outcome (list Span.t)) (spans : list Span.t)
    (items : list ChatEntity.t) (r : Entity.t)
    (Hnlp : nlp C = Some pipeline)
    (Hspans : pipeline text = Returned spans)
    (Hchat : chat_entities C (String.substring 0 2000 text) = Returned items)
    (Hr : r ∈ _deduplicate_entities
              ((spacy_entity <$> spans) ++ (chat_entity <$> items))) :
  _extract_entities C text
  = Returned (_deduplicate_entities
                ((spacy_entity <$> spans) ++ (chat_entity <$> items)))
  ∧ ((∃ sp, sp ∈ spans ∧ entity_key (spacy_entity sp) = entity_key r) →
       Entity.source r = "spacy" ∧ (1 <= Entity.confidence r)%Q
       ∧ ∃ sp, sp ∈ spans ∧ Entity.text r = Span.text sp
               ∧ Entity.span r = Some (Span.start_char sp, Span.end_char sp))
  ∧ ((∀ sp, sp ∈ spans → entity_key (spacy_entity sp) ≠ entity_key r) →
       Entity.source r = "openai")
  ∧ (∀ before item after,
       items = before ++ item :: after →
       entity_key (chat_entity item) = entity_key r →
       (∀ it, it ∈ after → entity_key (chat_entity it) ≠ entity_key r) →
       Entity.label r = ChatEntity.type item).
Proof.
  split; [by apply (extract_entities_both C text pipeline)|].
  set (X := (spacy_entity <$> spans) ++ (chat_entity <$> items)) in *.
  pose proof (proj1 (dedup_entities_elem X r) Hr) as Hget.
  destruct (entity_map_of_first_seen X _ r Hget)
    as (b & e & a & HX & Hk & Hb & Ht & Hs & Hsrc).
  assert (He : e ∈ X) by (rewrite HX; apply elem_of_app; right; apply elem_of_cons; auto).
  split_and!.
  - intros (sp & Hsp & Hspk).
    assert (Hfirst : e ∈ spacy_entity <$> spans).
    { apply (first_in_prefix _ (chat_entity <$> items) b a e (spacy_entity sp) HX).
      - by apply list_elem_of_fmap_2.
      - intros Hin. apply Hb. rewrite <- Hspk. by apply list_elem_of_fmap_2. }
    apply list_elem_of_fmap in Hfirst as (sp0 & -> & Hsp0).
    split_and!.
    + by rewrite Hsrc.
    + destruct (dedup_confidence_is_maximum X _ r Hget) as [Hub _].
      apply (Hub (spacy_entity sp0)); [done | done].
    + exists sp0. by rewrite Ht, Hs.
  - intros Hnone. rewrite Hsrc.
    unfold X in He. apply elem_of_app in He as [He|He].
    + apply list_elem_of_fmap in He as (sp & -> & Hsp). by destruct (Hnone sp Hsp).
    + by apply list_elem_of_fmap in He as (it & -> & _).
  - intros before item after Hitems Hitem Hafter.
    pose proof (entity_map_of_label X (entity_key r)) as Hlabel.
    rewrite Hget in Hlabel. simpl in Hlabel.
    unfold X, final_label in Hlabel. rewrite !filter_app in Hlabel.
    rewrite filter_openai_spacy, filter_openai_chat in Hlabel. simpl in Hlabel.
    rewrite Hitems, fmap_app, fmap_cons, filter_app, filter_cons_True in Hlabel by done.
    assert (Hnil : filter (λ e0, entity_key e0 = entity_key r) (chat_entity <$> after) = []).
    { apply filter_none. intros e0 He0 Hk0.
      apply list_elem_of_fmap in He0 as (it & -> & Hit). by apply (Hafter it Hit). }
    rewrite Hnil in Hlabel.
    rewrite last_snoc in Hlabel.
    by injection Hlabel.
Qed.

Lemma extraction_combines_sources_witness :
  let pipeline : string → Outcome (list Span.t) :=
    λ _, Returned [Span.mk "Ada" "PERSON" 0 3] in
  let items := [ChatEntity.mk "ada" "SCIENTIST" (Some (4 # 5));
                ChatEntity.mk "Graph" "CONCEPT" None] in
  let C := {| nlp := Some pipeline; chat_entities := λ _, Returned items |} in
  let r := Entity.mk "Ada" "SCIENTIST" (Some (0, 3)%Z) 1 "spacy" in
  r ∈ _deduplicate_entities
        ((spacy_entity <$> [Span.mk "Ada" "PERSON" 0 3]) ++ (chat_entity <$> items))
  ∧ _extract_entities C "Ada draws a graph"
    = Returned [r; Entity.mk "Graph" "CONCEPT" None (1 # 2) "openai"].
Proof.
  intros pipeline items C r.
  assert (Hr : r ∈ _deduplicate_entities
                 ((spacy_entity <$> [Span.mk "Ada" "PERSON" 0 3])
                  ++ (chat_entity <$> items))).
  { apply elem_of_cons. left. reflexivity. }
  split; [exact Hr|].
  apply (extraction_combines_sources C "Ada draws a graph" pipeline
           [Span.mk "Ada" "PERSON" 0 3] items r eq_refl eq_refl eq_refl Hr).
Defined.
